(** * frame_muxer: audio/video segment muxer of the ffmpeg producer

    Shallow embedding of [frame_muxer::impl]
    (src/modules/ffmpeg/producer/muxer/frame_muxer.cpp) and the properties
    of its push / ready / pop operations.

    Conventions
    - [std::queue] and [std::vector] are lists: [front] is the head, [push]
      appends at the end, [pop] removes the head, [back] is the last element.
    - C++ integers are [Z] with the conversions written out ([to_int],
      [to_uint32], [to_uint64], [to_size_t]).
    - A member function that mutates the object is a function from the
      object to an outcome and the object afterwards: an exception leaves the
      mutations made before the throw in place, as in the source. *)

From Stdlib Require Import ZArith List Bool String Lia Permutation.
Import ListNotations.
Local Open Scope Z_scope.

(** ** Machine integers *)

Definition to_uint32 (z : Z) : Z := z mod 2 ^ 32.
Definition to_uint64 (z : Z) : Z := z mod 2 ^ 64.

(** [int] is 32 bits, two's complement.  Signed overflow is undefined in
    C++; the wrap-around of the usual targets is what is written here, and
    the statements that depend on [32 * cadence] bound the cadence so that
    no overflow occurs. *)
Definition to_int (z : Z) : Z := (z + 2 ^ 31) mod 2 ^ 32 - 2 ^ 31.

(** [static_cast<size_t>(int)] on a 64-bit target. *)
Definition to_size_t (z : Z) : Z := to_uint64 z.

(** [c.size()] of a container. *)
Definition size {A : Type} (l : list A) : Z := Z.of_nat (List.length l).

(** ** Containers *)

(** [q.front()]; on an empty container the source is undefined and the
    default [d] stands for it. *)
Definition front {A : Type} (d : A) (q : list A) : A := hd d q.

(** [q.back()], same remark. *)
Definition back {A : Type} (d : A) (q : list A) : A := last q d.

(** [q.back()] used as an lvalue: [f] is applied to the last element. *)
Fixpoint on_back {A : Type} (f : A -> A) (q : list A) : list A :=
  match q with
  | [] => []
  | [x] => [f x]
  | x :: q' => x :: on_back f q'
  end.

(** [std::rotate(begin, begin + middle, end)]: the element at position
    [middle] becomes the first one. *)
Definition rotate {A : Type} (middle : nat) (l : list A) : list A :=
  skipn middle l ++ firstn middle l.

(** A bounded [for]/[while] loop: [loop_pow k] runs [body] while [cond]
    holds, at most [2 ^ k] times. *)
Fixpoint loop_pow {St : Type} (cond : St -> bool) (body : St -> St)
    (k : nat) (s : St) : St :=
  if cond s then
    match k with
    | O => body s
    | S k' => loop_pow cond body k' (loop_pow cond body k' s)
    end
  else s.

(** ** Enumerations *)

(** Modelled from the spec: the [display_mode] enumeration of
    display_mode.h, which is not part of the sources; the spec lists these
    eight modes. *)
Module display_mode.
Inductive t : Set :=
| simple
| duplicate
| half
| interlace
| deinterlace_bob
| deinterlace_bob_reinterlace
| deinterlace
| invalid.

Definition eqb (a b : t) : bool :=
  match a, b with
  | simple, simple | duplicate, duplicate | half, half
  | interlace, interlace | deinterlace_bob, deinterlace_bob
  | deinterlace_bob_reinterlace, deinterlace_bob_reinterlace
  | deinterlace, deinterlace | invalid, invalid => true
  | _, _ => false
  end.
End display_mode.

(** Modelled from the spec: [core::field_mode] (progressive / upper /
    lower), declared in the core library. *)
Module field_mode.
Inductive t : Set := progressive | upper | lower.

Definition eqb (a b : t) : bool :=
  match a, b with
  | progressive, progressive | upper, upper | lower, lower => true
  | _, _ => false
  end.
End field_mode.

(** ** Collaborators

    The muxer calls into the filter graph, the frame factory and a few
    helpers of util.h and display_mode.h.  None of them is part of the
    sources; they are an interface here, and every statement below holds for
    every implementation of it. *)
Class Collaborators (AVFrame filter picture double : Type) : Type := {
  (* util.h *)
  get_mode : AVFrame -> field_mode.t;
  frame_height : AVFrame -> Z;
  make_picture : AVFrame -> double -> picture;
  (* frame_factory::create_frame with an invalid pixel format *)
  blank_picture : picture;
  (* display_mode.h *)
  get_display_mode :
    field_mode.t -> double -> field_mode.t -> double -> display_mode.t;
  (* [in_fps_ < 50.0] and [fps *= 2] on doubles *)
  double_lt_50 : double -> bool;
  double_twice : double -> double;
  (* filter.h *)
  filter_default : filter;
  filter_new : string -> filter;
  filter_push : filter -> AVFrame -> filter;
  filter_poll : filter -> option AVFrame * filter;
  filter_poll_all : filter -> list AVFrame * filter;
  filter_filter_str : filter -> string;
  filter_delay : filter -> Z;
  filter_is_double_rate : filter -> bool;
  is_deinterlacing : string -> bool;
  is_double_rate : string -> bool;
  append_filter : string -> string -> string;
  (* boost::iequals *)
  iequals : string -> string -> bool
}.

(** ** Outcomes *)

(** [invalid_operation] with its [msg_info]; the messages are cut after
    their first sentence. *)
Inductive exception : Set :=
| invalid_operation (msg_info : string).

(** [Undefined] stands for the executions the source leaves undefined:
    [front()] of an empty queue, and [pop_audio] continuing after its
    [CASPAR_VERIFY] has failed (the iterator range then runs past the end of
    the buffer). *)
Inductive outcome (A : Type) : Type :=
| Returned (a : A)
| Thrown (e : exception)
| Undefined.
Arguments Returned {A} a.
Arguments Thrown {A} e.
Arguments Undefined {A}.

Definition is_thrown {A : Type} (o : outcome A) : bool :=
  match o with Thrown _ => true | _ => false end.

Definition video_overflow : exception :=
  invalid_operation "video-stream overflow".
Definition audio_overflow : exception :=
  invalid_operation "audio-stream overflow".

(** ** The muxer *)

Section Muxer.

Context {AVFrame filter picture double : Type}.
Context {collab : Collaborators AVFrame filter picture double}.

(** [core::audio_buffer]: a vector of 32-bit samples. *)
Definition audio_buffer : Type := list Z.

(** [core::mutable_frame]: the image planes and the audio carried along. *)
Record mutable_frame : Type := {
  image_data : picture;
  audio_data : audio_buffer
}.

(** [core::draw_frame]: a frame, or two of them interlaced. *)
Inductive draw_frame : Type :=
| draw_frame_of (frame : mutable_frame)
| draw_frame_interlace (frame1 frame2 : draw_frame) (mode : field_mode.t).

(** The fields of [core::video_format_desc] that the muxer reads. *)
Record video_format_desc : Type := {
  fps : double;
  field_mode_of : field_mode.t;
  height : Z;
  audio_cadence : list Z
}.

(** The member variables of [frame_muxer::impl] (the frame factory only
    produces frames and has no state of its own here). *)
Record impl : Type := {
  video_streams_ : list (list mutable_frame);
  audio_streams_ : list audio_buffer;
  frame_buffer_ : list draw_frame;
  display_mode_ : display_mode.t;
  in_fps_ : double;
  format_desc_ : video_format_desc;
  audio_cadence_ : list Z;
  filter_ : filter;
  filter_str_ : string
}.

Definition set_video_streams (vs : list (list mutable_frame)) (m : impl) : impl :=
  {| video_streams_ := vs; audio_streams_ := audio_streams_ m;
     frame_buffer_ := frame_buffer_ m; display_mode_ := display_mode_ m;
     in_fps_ := in_fps_ m; format_desc_ := format_desc_ m;
     audio_cadence_ := audio_cadence_ m; filter_ := filter_ m;
     filter_str_ := filter_str_ m |}.

Definition set_audio_streams (aus : list audio_buffer) (m : impl) : impl :=
  {| video_streams_ := video_streams_ m; audio_streams_ := aus;
     frame_buffer_ := frame_buffer_ m; display_mode_ := display_mode_ m;
     in_fps_ := in_fps_ m; format_desc_ := format_desc_ m;
     audio_cadence_ := audio_cadence_ m; filter_ := filter_ m;
     filter_str_ := filter_str_ m |}.

Definition set_frame_buffer (fb : list draw_frame) (m : impl) : impl :=
  {| video_streams_ := video_streams_ m; audio_streams_ := audio_streams_ m;
     frame_buffer_ := fb; display_mode_ := display_mode_ m;
     in_fps_ := in_fps_ m; format_desc_ := format_desc_ m;
     audio_cadence_ := audio_cadence_ m; filter_ := filter_ m;
     filter_str_ := filter_str_ m |}.

Definition set_display_mode (d : display_mode.t) (m : impl) : impl :=
  {| video_streams_ := video_streams_ m; audio_streams_ := audio_streams_ m;
     frame_buffer_ := frame_buffer_ m; display_mode_ := d;
     in_fps_ := in_fps_ m; format_desc_ := format_desc_ m;
     audio_cadence_ := audio_cadence_ m; filter_ := filter_ m;
     filter_str_ := filter_str_ m |}.

Definition set_audio_cadence (c : list Z) (m : impl) : impl :=
  {| video_streams_ := video_streams_ m; audio_streams_ := audio_streams_ m;
     frame_buffer_ := frame_buffer_ m; display_mode_ := display_mode_ m;
     in_fps_ := in_fps_ m; format_desc_ := format_desc_ m;
     audio_cadence_ := c; filter_ := filter_ m;
     filter_str_ := filter_str_ m |}.

Definition set_filter (f : filter) (m : impl) : impl :=
  {| video_streams_ := video_streams_ m; audio_streams_ := audio_streams_ m;
     frame_buffer_ := frame_buffer_ m; display_mode_ := display_mode_ m;
     in_fps_ := in_fps_ m; format_desc_ := format_desc_ m;
     audio_cadence_ := audio_cadence_ m; filter_ := f;
     filter_str_ := filter_str_ m |}.

(** Member functions: the object goes in, the outcome and the object come
    out. *)
Definition M (A : Type) : Type := impl -> outcome A * impl.

Definition ret {A : Type} (a : A) : M A := fun m => (Returned a, m).

Definition bind {A B : Type} (c : M A) (k : A -> M B) : M B :=
  fun m =>
    match c m with
    | (Returned a, m') => k a m'
    | (Thrown e, m') => (Thrown e, m')
    | (Undefined, m') => (Undefined, m')
    end.

Definition throw {A : Type} (e : exception) : M A := fun m => (Thrown e, m).

(** A [void] member that cannot fail. *)
Definition modify (f : impl -> impl) : M unit := fun m => (Returned tt, f m).

Notation "x <- c ;; k" := (bind c (fun x => k))
  (at level 61, c at next level, right associativity).
Notation "c ;;; k" := (bind c (fun _ => k))
  (at level 61, right associativity).

(** *** Construction (lines 84-98) *)

(** [make_frame] of util.h and [frame_factory::create_frame]: fresh frames,
    without audio. *)
Definition make_frame (av_frame : AVFrame) (out_fps : double) : mutable_frame :=
  {| image_data := make_picture av_frame out_fps; audio_data := [] |}.

Definition create_frame : mutable_frame :=
  {| image_data := blank_picture; audio_data := [] |}.

(** The constructor: one empty segment per stream, and the cadence of the
    format rotated so that its last entry comes first
    ([rotate(audio_cadence_, end - 1)]; with an empty cadence [end - 1] is
    undefined in the source, and the empty list stands for it). *)
Definition construct (in_fps : double) (format_desc : video_format_desc)
    (filter_str : string) : impl :=
  {| video_streams_ := [[]];
     audio_streams_ := [[]];
     frame_buffer_ := [];
     display_mode_ := display_mode.invalid;
     in_fps_ := in_fps;
     format_desc_ := format_desc;
     audio_cadence_ :=
       rotate (List.length (audio_cadence format_desc) - 1)
              (audio_cadence format_desc);
     filter_ := filter_default;
     filter_str_ := filter_str |}.

(** [audio_cadence_.front()]. *)
Definition cadence_front (m : impl) : Z := front 0 (audio_cadence_ m).

(** *** update_display_mode (lines 266-316) *)

(** The loop of lines 306-312: [n] counts up while [n < filter_.delay()];
    [delay()] is an [int], so [2 ^ 31] rounds are a bound. *)
Definition drain_cond (s : Z * impl) : bool :=
  fst s <? filter_delay (filter_ (snd s)).

Definition drain_body (frame : AVFrame) (s : Z * impl) : Z * impl :=
  let (n, m) := s in
  let f1 := filter_push (filter_ m) frame in
  let (av_frame, f2) := filter_poll f1 in
  let m1 := set_filter f2 m in
  let m2 :=
    match av_frame with
    | Some av =>
        set_video_streams
          (on_back (fun q => q ++ [make_frame av (fps (format_desc_ m1))])
                   (video_streams_ m1)) m1
    | None => m1
    end in
  (n + 1, m2).

Definition drain_filter_upto (k : nat) (frame : AVFrame) (m : impl) : impl :=
  snd (loop_pow drain_cond (drain_body frame) k (0, m)).

Definition drain_filter : AVFrame -> impl -> impl := drain_filter_upto 31.

Definition update_display_mode (frame : AVFrame) (m : impl) : impl :=
  let filter_str := filter_str_ m in
  let m := set_display_mode display_mode.simple m in
  let mode := get_mode frame in
  let mode :=
    if field_mode.eqb mode field_mode.progressive
       && (frame_height frame <? 720) && double_lt_50 (in_fps_ m)
    then field_mode.upper else mode in
  let fps0 := in_fps_ m in
  let mode :=
    if is_deinterlacing (filter_str_ m) then field_mode.progressive else mode in
  let fps1 := if is_double_rate (filter_str_ m) then double_twice fps0 else fps0 in
  let dm :=
    get_display_mode mode fps1 (field_mode_of (format_desc_ m))
                     (fps (format_desc_ m)) in
  let dm :=
    if (negb (frame_height frame =? 480) || negb (height (format_desc_ m) =? 486))
       && display_mode.eqb dm display_mode.simple
       && negb (field_mode.eqb mode field_mode.progressive)
       && negb (field_mode.eqb (field_mode_of (format_desc_ m))
                               field_mode.progressive)
       && negb (frame_height frame =? height (format_desc_ m))
    then display_mode.deinterlace_bob_reinterlace else dm in
  let filter_str :=
    if display_mode.eqb dm display_mode.deinterlace
    then append_filter filter_str "YADIF=0:-1"
    else if display_mode.eqb dm display_mode.deinterlace_bob
            || display_mode.eqb dm display_mode.deinterlace_bob_reinterlace
    then append_filter filter_str "YADIF=1:-1"
    else filter_str in
  let dm := if display_mode.eqb dm display_mode.invalid
            then display_mode.simple else dm in
  let m1 := set_display_mode dm m in
  if negb (iequals (filter_filter_str (filter_ m1)) filter_str)
  then set_filter (filter_new filter_str) (drain_filter frame m1)
  else m1.

(** *** push_video, push_audio (lines 100-141) *)

(** The argument of [push_video]: a null pointer, one of the two sentinels
    of util.h, or a decoded frame. *)
Inductive video_arg : Type :=
| null_video
| flush_video
| empty_video
| decoded_video (video_frame : AVFrame).

Inductive audio_arg : Type :=
| null_audio
| flush_audio
| empty_audio
| decoded_audio (audio : audio_buffer).

(** Lines 105-121: what the push stores. *)
Definition store_video (video_frame : video_arg) (m : impl) : impl :=
  match video_frame with
  | null_video => m
  | flush_video => set_video_streams (video_streams_ m ++ [[]]) m
  | empty_video =>
      set_display_mode display_mode.simple
        (set_video_streams
           (on_back (fun q => q ++ [create_frame]) (video_streams_ m)) m)
  | decoded_video frame =>
      let m1 :=
        if display_mode.eqb (display_mode_ m) display_mode.invalid
        then update_display_mode frame m else m in
      let (av_frames, f) := filter_poll_all (filter_push (filter_ m1) frame) in
      let m2 := set_filter f m1 in
      set_video_streams
        (on_back
           (fun q => q ++ map (fun av => make_frame av (fps (format_desc_ m2)))
                              av_frames)
           (video_streams_ m2)) m2
  end.

Definition push_video (video_frame : video_arg) : M unit :=
  match video_frame with
  | null_video => ret tt
  | _ =>
      modify (store_video video_frame) ;;;
      fun m =>
        if 32 <? size (back [] (video_streams_ m))
        then throw video_overflow m
        else ret tt m
  end.

(** Lines 132-137. [core::audio_buffer(n, 0)] is [n] zero samples, [n]
    converted to [size_t]. *)
Definition store_audio (audio : audio_arg) (m : impl) : impl :=
  match audio with
  | null_audio => m
  | flush_audio => set_audio_streams (audio_streams_ m ++ [[]]) m
  | empty_audio =>
      set_audio_streams
        (on_back
           (fun b => b ++ repeat 0 (Z.to_nat (to_size_t (cadence_front m))))
           (audio_streams_ m)) m
  | decoded_audio a =>
      set_audio_streams (on_back (fun b => b ++ a) (audio_streams_ m)) m
  end.

(** [static_cast<size_t>(32*audio_cadence_.front())]. *)
Definition audio_bound (m : impl) : Z := to_size_t (to_int (32 * cadence_front m)).

Definition push_audio (audio : audio_arg) : M unit :=
  match audio with
  | null_audio => ret tt
  | _ =>
      modify (store_audio audio) ;;;
      fun m =>
        if audio_bound m <? size (back [] (audio_streams_ m))
        then throw audio_overflow m
        else ret tt m
  end.

(** *** Readiness (lines 143-175) *)

Definition video_ready2 (m : impl) : bool :=
  match display_mode_ m with
  | display_mode.deinterlace_bob_reinterlace
  | display_mode.interlace
  | display_mode.half => 2 <=? size (front [] (video_streams_ m))
  | _ => 1 <=? size (front [] (video_streams_ m))
  end.

Definition audio_ready2 (m : impl) : bool :=
  match display_mode_ m with
  | display_mode.duplicate =>
      to_size_t (cadence_front m) <=? size (front [] (audio_streams_ m)) / 2
  | _ => to_size_t (cadence_front m) <=? size (front [] (audio_streams_ m))
  end.

Definition video_ready (m : impl) : bool :=
  (1 <? size (video_streams_ m))
  || ((size (audio_streams_ m) <=? size (video_streams_ m)) && video_ready2 m).

Definition audio_ready (m : impl) : bool :=
  (1 <? size (audio_streams_ m))
  || ((size (video_streams_ m) <=? size (audio_streams_ m)) && audio_ready2 m).

(** *** pop_video, pop_audio (lines 244-264) *)

Definition pop_video : M mutable_frame :=
  fun m =>
    match video_streams_ m with
    | (frame :: q) :: rest => (Returned frame, set_video_streams (q :: rest) m)
    | _ => (Undefined, m)
    end.

(** The [CASPAR_VERIFY] of line 253 is the guard; past it the first
    [audio_cadence_.front()] samples are cut off and the cadence is rotated
    by one ([rotate(audio_cadence_, begin + 1)]). *)
Definition pop_audio : M audio_buffer :=
  fun m =>
    match audio_streams_ m, audio_cadence_ m with
    | buf :: rest, c :: _ =>
        if to_size_t c <=? size buf
        then
          let n := Z.to_nat c in
          (Returned (firstn n buf),
           set_audio_cadence (rotate 1 (audio_cadence_ m))
             (set_audio_streams (skipn n buf :: rest) m))
        else (Undefined, m)
    | _, _ => (Undefined, m)
    end.

(** *** try_pop (lines 177-242) *)

(** Lines 186-193: at a segment boundary the two front segments go. *)
Definition truncate (m : impl) : impl :=
  if (1 <? size (video_streams_ m)) && (1 <? size (audio_streams_ m))
     && (negb (video_ready2 m) || negb (audio_ready2 m))
  then set_audio_streams (tl (audio_streams_ m))
         (set_video_streams (tl (video_streams_ m)) m)
  else m.

Definition with_audio (frame : mutable_frame) (a : audio_buffer) : mutable_frame :=
  {| image_data := image_data frame; audio_data := a |}.

Definition push_frame (f : draw_frame) : M unit :=
  modify (fun m => set_frame_buffer (frame_buffer_ m ++ [f]) m).

(** Lines 198-239: one tick is taken from the streams and put into
    [frame_buffer_]. *)
Definition assemble : M unit :=
  frame0 <- pop_video ;;
  a <- pop_audio ;;
  let frame1 := with_audio frame0 a in
  fun m =>
    match display_mode_ m with
    | display_mode.simple
    | display_mode.deinterlace_bob
    | display_mode.deinterlace =>
        push_frame (draw_frame_of frame1) m
    | display_mode.interlace
    | display_mode.deinterlace_bob_reinterlace =>
        (frame2 <- pop_video ;;
         push_frame (draw_frame_interlace (draw_frame_of frame1)
                       (draw_frame_of frame2)
                       (field_mode_of (format_desc_ m)))) m
    | display_mode.duplicate =>
        (a2 <- pop_audio ;;
         let draw_frame := draw_frame_of (with_audio frame1 (audio_data frame1 ++ a2)) in
         push_frame draw_frame ;;;
         push_frame draw_frame) m
    | display_mode.half =>
        (pop_video ;;;
         push_frame (draw_frame_of frame1)) m
    | display_mode.invalid => throw (invalid_operation "") m
    end.

(** [try_pop]: [Some f] is [true] with [result = f], [None] is [false].
    The function calls itself on line 241; [depth] bounds the nesting of
    these calls, and the outer [option] is [None] when the bound is hit. *)
Fixpoint try_pop (depth : nat) (m : impl)
    : option (outcome (option draw_frame) * impl) :=
  match depth with
  | O => None
  | S depth' =>
      match frame_buffer_ m with
      | f :: fb => Some (Returned (Some f), set_frame_buffer fb m)
      | [] =>
          let m1 := truncate m in
          if negb (video_ready2 m1) || negb (audio_ready2 m1)
             || display_mode.eqb (display_mode_ m1) display_mode.invalid
          then Some (Returned None, m1)
          else
            match assemble m1 with
            | (Returned _, m2) => try_pop depth' m2
            | (Thrown e, m2) => Some (Thrown e, m2)
            | (Undefined, m2) => Some (Undefined, m2)
            end
      end
  end.

(** *** calc_nb_frames (lines 318-338) *)

Definition calc_nb_frames (m : impl) (nb_frames : Z) : Z :=
  let nb_frames2 := to_uint64 nb_frames in
  let nb_frames2 :=
    if filter_is_double_rate (filter_ m)
    then to_uint64 (nb_frames2 * 2) else nb_frames2 in
  let nb_frames2 :=
    match display_mode_ m with
    | display_mode.deinterlace_bob_reinterlace
    | display_mode.interlace
    | display_mode.half => nb_frames2 / 2
    | display_mode.duplicate => to_uint64 (nb_frames2 * 2)
    | _ => nb_frames2
    end in
  to_uint32 nb_frames2.

(** *** Drivers *)

(** [k] calls of [pop_audio] in a row. *)
Fixpoint pop_audio_times (k : nat) : M (list audio_buffer) :=
  match k with
  | O => ret []
  | S k' =>
      a <- pop_audio ;;
      rest <- pop_audio_times k' ;;
      ret (a :: rest)
  end.

(** [n] calls of [try_pop] in a row; the frames handed out, in order. *)
Fixpoint poll (n : nat) (m : impl) : list draw_frame * impl :=
  match n with
  | O => ([], m)
  | S n' =>
      match try_pop 2 m with
      | Some (Returned (Some f), m') =>
          let (fs, m'') := poll n' m' in (f :: fs, m'')
      | Some (_, m') => poll n' m'
      | None => ([], m)
      end
  end.

(** The calls a client can make, and the object after a sequence of them
    (an exception is caught by the client; the object stays as the throw
    left it). *)
Inductive call : Type :=
| call_push_video (video_frame : video_arg)
| call_push_audio (audio : audio_arg)
| call_try_pop.

Definition after_call (m : impl) (c : call) : impl :=
  match c with
  | call_push_video v => snd (push_video v m)
  | call_push_audio a => snd (push_audio a m)
  | call_try_pop =>
      match try_pop 2 m with
      | Some (_, m') => m'
      | None => m
      end
  end.

Definition after_calls (m : impl) (cs : list call) : impl :=
  fold_left after_call cs m.

(** *** Vocabulary of the statements *)

Definition streams_nonempty (m : impl) : Prop :=
  video_streams_ m <> [] /\ audio_streams_ m <> [].

(** A stream after a push: a new empty segment behind the others, or more
    data at the end of the last segment. *)
Definition grown {A : Type} (old new : list (list A)) : Prop :=
  new = old ++ [[]] \/ exists extra, new = on_back (fun q => q ++ extra) old.

(** A stream after a pop: the front segment lost some of its first
    elements ([dropped = false]), or the front segment is gone and the next
    one lost some of its first elements ([dropped = true]). *)
Definition consumed {A : Type} (dropped : bool) (old new : list (list A)) : Prop :=
  let old' := if dropped then tl old else old in
  List.length new = List.length old' /\ tl new = tl old' /\
  exists n, front [] new = skipn n (front [] old').

(** The object after some pops: both streams have lost elements at the
    front of their front segment, the cadence has been rotated a few steps,
    the display mode is as before. *)
Definition popped (m m' : impl) : Prop :=
  consumed false (video_streams_ m) (video_streams_ m')
  /\ consumed false (audio_streams_ m) (audio_streams_ m')
  /\ (exists n, audio_cadence_ m' = Nat.iter n (rotate 1) (audio_cadence_ m))
  /\ display_mode_ m' = display_mode_ m
  /\ format_desc_ m' = format_desc_ m.

(** Both front segments hold a tick, and a display mode has been chosen
    (the negation of the test on line 195). *)
Definition tick_ready (m : impl) : bool :=
  negb (negb (video_ready2 m) || negb (audio_ready2 m)
        || display_mode.eqb (display_mode_ m) display_mode.invalid).

(** [l] is [base] cut in two and glued the other way round. *)
Definition is_rotation {A : Type} (l base : list A) : Prop :=
  exists a b, base = a ++ b /\ l = b ++ a.

Definition sum (l : list Z) : Z := fold_right Z.add 0 l.

(** The spec's words for the readiness thresholds. *)
Definition units_per_tick (d : display_mode.t) : Z :=
  match d with
  | display_mode.deinterlace_bob_reinterlace
  | display_mode.interlace
  | display_mode.half => 2
  | _ => 1
  end.

Definition samples_per_tick (d : display_mode.t) (cadence_head : Z) : Z :=
  match d with
  | display_mode.duplicate => 2 * cadence_head
  | _ => cadence_head
  end.

(** The spec's words for the frame-count projection, on unbounded
    integers. *)
Definition projected (double_rate : bool) (d : display_mode.t) (n : Z) : Z :=
  let n := if double_rate then n * 2 else n in
  match d with
  | display_mode.interlace
  | display_mode.deinterlace_bob_reinterlace
  | display_mode.half => n / 2
  | display_mode.duplicate => n * 2
  | _ => n
  end.

(** The spec's words for [Duplicate]: every video unit takes two
    consecutive cadence chunks, glued, and comes out twice.  The frame is
    written out field by field: the picture of the unit, and as its audio
    the samples of the two chunks and nothing else. *)
Fixpoint duplicate_ticks (video : list mutable_frame) (audio : audio_buffer)
    (cadence : list Z) : list draw_frame :=
  match video with
  | [] => []
  | v :: video' =>
      let n := Nat.add (Z.to_nat (front 0 cadence))
                       (Z.to_nat (front 0 (rotate 1 cadence))) in
      let f := draw_frame_of {| image_data := image_data v;
                                audio_data := firstn n audio |} in
      f :: f :: duplicate_ticks video' (skipn n audio) (rotate 1 (rotate 1 cadence))
  end.

(** *** Vocabulary of the further statements *)

(** The modes whose branch hands one frame out per video unit (lines
    203-209). *)
Definition emits_single (d : display_mode.t) : bool :=
  match d with
  | display_mode.simple
  | display_mode.deinterlace_bob
  | display_mode.deinterlace => true
  | _ => false
  end.

(** What these modes make of a segment: every video unit leaves with the
    next cadence chunk.  The frame is written out field by field: the
    picture of the unit, and as its audio the samples of the chunk. *)
Fixpoint single_ticks (video : list mutable_frame) (audio : audio_buffer)
    (cadence : list Z) : list draw_frame :=
  match video with
  | [] => []
  | v :: video' =>
      let n := Z.to_nat (front 0 cadence) in
      draw_frame_of {| image_data := image_data v;
                       audio_data := firstn n audio |}
      :: single_ticks video' (skipn n audio) (rotate 1 cadence)
  end.

(** The frame that the branches of lines 210-220 and 230-236 put out for
    two consecutive video units, the first one carrying the audio. *)
Definition pair_output (d : display_mode.t) (fm : field_mode.t)
    (frame1 frame2 : mutable_frame) : draw_frame :=
  match d with
  | display_mode.half => draw_frame_of frame1
  | _ => draw_frame_interlace (draw_frame_of frame1) (draw_frame_of frame2) fm
  end.

Definition unpair (pairs : list (mutable_frame * mutable_frame))
    : list mutable_frame :=
  flat_map (fun p => [fst p; snd p]) pairs.

Fixpoint paired_ticks (d : display_mode.t) (fm : field_mode.t)
    (pairs : list (mutable_frame * mutable_frame)) (audio : audio_buffer)
    (cadence : list Z) : list draw_frame :=
  match pairs with
  | [] => []
  | (v1, v2) :: pairs' =>
      let n := Z.to_nat (front 0 cadence) in
      pair_output d fm
        {| image_data := image_data v1; audio_data := firstn n audio |} v2
      :: paired_ticks d fm pairs' (skipn n audio) (rotate 1 cadence)
  end.

(** No video unit is buffered as long as no display mode is chosen. *)
Definition mode_chosen_if_buffered (m : impl) : Prop :=
  display_mode_ m = display_mode.invalid ->
  Forall (fun segment => segment = []) (video_streams_ m).

(** The calls that can shorten the last segment of a stream or put another
    one behind it: [try_pop] (lines 246-247 and 259 take from the front
    segment, which is the last one when the stream has one segment), and the
    flush of that stream. *)
Definition is_try_pop (c : call) : bool :=
  match c with
  | call_try_pop => true
  | _ => false
  end.

Definition is_video_flush (c : call) : bool :=
  match c with
  | call_push_video flush_video => true
  | _ => false
  end.

Definition is_audio_flush (c : call) : bool :=
  match c with
  | call_push_audio flush_audio => true
  | _ => false
  end.

End Muxer.

Arguments mutable_frame : clear implicits.
Arguments draw_frame : clear implicits.
Arguments video_format_desc : clear implicits.
Arguments impl : clear implicits.
Arguments video_arg : clear implicits.
Arguments M : clear implicits.
Arguments call : clear implicits.

(** ** A concrete set of collaborators

    Frames are numbered, rates are in thousandths of a frame per second,
    the filter hands every frame through unchanged, and the display mode is
    chosen by the rate and field-mode comparison of display_mode.h.  The
    examples further down run on it. *)
Module Fixture.

Record av_frame : Set := {
  av_id : Z;
  av_height : Z;
  av_mode : field_mode.t
}.

Record pass_filter : Set := {
  descr : string;
  pending : list av_frame
}.

Definition near (a b : Z) : bool := Z.abs (a - b) <? 2000.

Definition choose_mode (in_mode : field_mode.t) (in_fps : Z)
    (out_mode : field_mode.t) (out_fps : Z) : display_mode.t :=
  let in_p := field_mode.eqb in_mode field_mode.progressive in
  let out_p := field_mode.eqb out_mode field_mode.progressive in
  if near in_fps out_fps then
    if negb in_p && out_p then display_mode.deinterlace else display_mode.simple
  else if near (in_fps / 2) out_fps then
    if negb in_p then display_mode.invalid
    else if negb out_p then display_mode.interlace else display_mode.half
  else if near in_fps (out_fps / 2) then
    if negb out_p then display_mode.invalid
    else if negb in_p then display_mode.deinterlace_bob else display_mode.duplicate
  else display_mode.invalid.

#[export] Instance collab : Collaborators av_frame pass_filter Z Z := {|
  get_mode := av_mode;
  frame_height := av_height;
  make_picture := fun f _ => av_id f;
  blank_picture := -1;
  get_display_mode := choose_mode;
  double_lt_50 := fun d => d <? 50000;
  double_twice := fun d => 2 * d;
  filter_default := {| descr := ""; pending := [] |};
  filter_new := fun s => {| descr := s; pending := [] |};
  filter_push := fun f a => {| descr := descr f; pending := pending f ++ [a] |};
  filter_poll := fun f =>
    match pending f with
    | [] => (None, f)
    | a :: q => (Some a, {| descr := descr f; pending := q |})
    end;
  filter_poll_all := fun f => (pending f, {| descr := descr f; pending := [] |});
  filter_filter_str := descr;
  filter_delay := fun _ => 0;
  filter_is_double_rate := fun f => String.eqb (descr f) "YADIF=1:-1";
  is_deinterlacing := fun s => String.prefix "YADIF" s;
  is_double_rate := fun s => String.eqb s "YADIF=1:-1";
  append_filter := fun a b => if String.eqb a "" then b else String.append a (String.append "," b);
  iequals := String.eqb
|}.

Definition muxer : Type := impl pass_filter Z Z.

(** 720p50 with 960 samples per frame, and NTSC with its five-step
    cadence. *)
Definition p50 : video_format_desc Z :=
  {| fps := 50000; field_mode_of := field_mode.progressive; height := 720;
     audio_cadence := [960] |}.

Definition ntsc : video_format_desc Z :=
  {| fps := 29970; field_mode_of := field_mode.lower; height := 486;
     audio_cadence := [1602; 1601; 1602; 1601; 1602] |}.

Definition hd_frame (id : Z) : av_frame :=
  {| av_id := id; av_height := 720; av_mode := field_mode.progressive |}.

(** A 25p clip played on a 50p channel: [Duplicate]. *)
Definition fresh_25_on_50 : muxer := construct 25000 p50 "".

(** A 29.97 clip on an NTSC channel. *)
Definition fresh_ntsc : muxer := construct 29970 ntsc "".

Definition blanks (n : nat) : list (call av_frame) :=
  repeat (call_push_video empty_video) n.

(** 31 blank frames in the only segment; and 32 blank frames in a second
    segment, behind an empty first one. *)
Definition ntsc_31_blanks : muxer := after_calls fresh_ntsc (blanks 31).

Definition ntsc_flushed_32_blanks : muxer :=
  after_calls fresh_ntsc (call_push_video flush_video :: blanks 32).

(** One blank frame, and the audio stream already flushed. *)
Definition ntsc_audio_flushed : muxer :=
  after_calls fresh_ntsc
    [call_push_video empty_video; call_push_audio flush_audio].

(** One full cadence cycle of silence: 8008 samples. *)
Definition ntsc_one_cycle : muxer :=
  after_calls fresh_ntsc [call_push_audio (decoded_audio (repeat 0 (Z.to_nat 8008)))].

(** Two frames of the 25p clip and four output frames of samples. *)
Definition dup_two_ticks : muxer :=
  after_calls fresh_25_on_50
    [call_push_video (decoded_video (hd_frame 1));
     call_push_video (decoded_video (hd_frame 2));
     call_push_audio (decoded_audio (repeat 7 (Z.to_nat 3840)))].

(** A segment cut short: one blank frame and 100 samples, then both
    streams flushed. *)
Definition ntsc_cut_short : muxer :=
  after_calls fresh_ntsc
    [call_push_video empty_video;
     call_push_audio (decoded_audio (repeat 0 (Z.to_nat 100)));
     call_push_video flush_video;
     call_push_audio flush_audio].


(** 720p59.94 with its five-step cadence; a 29.97p clip on it is played in
    Duplicate mode, a 59.94p clip on the NTSC channel in Interlace mode. *)
Definition p5994 : video_format_desc Z :=
  {| fps := 59940; field_mode_of := field_mode.progressive; height := 720;
     audio_cadence := [801; 800; 801; 801; 801] |}.

Definition fresh_2997_on_5994 : muxer := construct 29970 p5994 "".

Definition fresh_5994_on_ntsc : muxer := construct 59940 ntsc "".

Definition silence (n : Z) : call av_frame :=
  call_push_audio (decoded_audio (repeat 0 (Z.to_nat n))).

(** One tick played, then a second frame with 1600 samples: twice the
    cadence head (800), one sample short of head plus next entry. *)
Definition dup_one_sample_short : muxer :=
  after_calls fresh_2997_on_5994
    [call_push_video (decoded_video (hd_frame 1)); silence 1602;
     call_try_pop; call_try_pop;
     call_push_video (decoded_video (hd_frame 2)); silence 1600].

(** [chunk v n] is [n] samples of value [v]: the value tells in the output
    which samples of the input a frame has got. *)
Definition chunk (value n : Z) : list Z := repeat value (Z.to_nat n).

(** Three frames of a 29.97p clip on the NTSC channel (Simple), with the
    three chunks of the cadence 1602, 1602, 1601 and one sample more. *)
Definition ntsc_three_marked : muxer :=
  after_calls fresh_ntsc
    [call_push_video (decoded_video (hd_frame 1));
     call_push_video (decoded_video (hd_frame 2));
     call_push_video (decoded_video (hd_frame 3));
     call_push_audio
       (decoded_audio (chunk 1 1602 ++ chunk 2 1602 ++ chunk 3 1601
                       ++ chunk 4 1))].

(** Four progressive frames for two interlaced output frames, with two
    cadence chunks. *)
Definition interlace_four_frames : muxer :=
  after_calls fresh_5994_on_ntsc
    [call_push_video (decoded_video (hd_frame 1));
     call_push_video (decoded_video (hd_frame 2));
     call_push_video (decoded_video (hd_frame 3));
     call_push_video (decoded_video (hd_frame 4));
     call_push_audio (decoded_audio (chunk 1 1602 ++ chunk 2 1602))].

(** Two frames of the 29.97p clip on 720p59.94 (Duplicate), with the four
    chunks of the cadence 801, 801, 800, 801 and one sample more. *)
Definition dup_marked : muxer :=
  after_calls fresh_2997_on_5994
    [call_push_video (decoded_video (hd_frame 1));
     call_push_video (decoded_video (hd_frame 2));
     call_push_audio
       (decoded_audio (chunk 1 801 ++ chunk 2 801 ++ chunk 3 800
                       ++ chunk 4 801 ++ chunk 5 1))].

(** 33 blank frames in the last segment. *)
Definition ntsc_overflowed : muxer :=
  after_calls fresh_ntsc (call_push_video flush_video :: blanks 33).

(** 33 blank frames in the only segment. *)
Definition ntsc_33_blanks : muxer := after_calls fresh_ntsc (blanks 33).

(** One sample more than 32 cadence heads (32 x 1602) in the only audio
    segment. *)
Definition ntsc_audio_overflowed : muxer :=
  after_calls fresh_ntsc [silence 51265].

(** An interlaced NTSC DV frame, 480 lines high. *)
Definition dv_frame : av_frame :=
  {| av_id := 1; av_height := 480; av_mode := field_mode.upper |}.


Definition numbered (id : Z) : mutable_frame Z :=
  {| image_data := id; audio_data := [] |}.

Definition four_in_pairs : list (mutable_frame Z * mutable_frame Z) :=
  [(numbered 1, numbered 2); (numbered 3, numbered 4)].

(** One blank frame with one cadence head of silence. *)
Definition ntsc_one_blank_tick : muxer :=
  after_calls fresh_ntsc [call_push_video empty_video; silence 1602].

End Fixture.

(** ** Properties *)

(** *** Lists, sizes, conversions *)

Lemma size_nonneg {A : Type} (l : list A) : 0 <= size l.
Proof. unfold size. lia. Qed.

Lemma size_app {A : Type} (l k : list A) : size (l ++ k) = size l + size k.
Proof. unfold size. rewrite length_app. lia. Qed.

Lemma size_cons {A : Type} (x : A) (l : list A) : size (x :: l) = size l + 1.
Proof. unfold size. simpl List.length. lia. Qed.

Lemma size_firstn {A : Type} (n : Z) (l : list A) :
  0 <= n <= size l -> size (firstn (Z.to_nat n) l) = n.
Proof. unfold size. intros H. rewrite length_firstn. lia. Qed.

Lemma size_skipn {A : Type} (n : Z) (l : list A) :
  0 <= n <= size l -> size (skipn (Z.to_nat n) l) = size l - n.
Proof. unfold size. intros H. rewrite length_skipn. lia. Qed.

Lemma to_size_t_small (z : Z) : 0 <= z < 2 ^ 64 -> to_size_t z = z.
Proof. intros H. unfold to_size_t, to_uint64. apply Z.mod_small. exact H. Qed.

Lemma to_size_t_nonneg (z : Z) : 0 <= to_size_t z.
Proof. unfold to_size_t, to_uint64. apply Z.mod_pos_bound. lia. Qed.

Lemma to_int_small (z : Z) : - 2 ^ 31 <= z < 2 ^ 31 -> to_int z = z.
Proof. intros H. unfold to_int. rewrite Z.mod_small; lia. Qed.

Lemma back_snoc {A : Type} (d x : A) (q : list A) : back d (q ++ [x]) = x.
Proof. unfold back. apply last_last. Qed.

Lemma on_back_snoc {A : Type} (f : A -> A) (q : list A) (x : A) :
  on_back f (q ++ [x]) = q ++ [f x].
Proof.
  induction q as [|y q IH]; [reflexivity|].
  simpl app. simpl on_back. rewrite IH.
  destruct q; reflexivity.
Qed.

Lemma snoc_cases {A : Type} (q : list A) :
  q = [] \/ exists q' x, q = q' ++ [x].
Proof.
  induction q as [|y q IH] using rev_ind; [left; reflexivity|].
  right. exists q, y. reflexivity.
Qed.

Lemma on_back_length {A : Type} (f : A -> A) (q : list A) :
  List.length (on_back f q) = List.length q.
Proof.
  destruct (snoc_cases q) as [->|(q' & x & ->)]; [reflexivity|].
  rewrite on_back_snoc, !length_app. reflexivity.
Qed.

Lemma on_back_nonempty {A : Type} (f : A -> A) (q : list A) :
  q <> [] -> on_back f q <> [].
Proof.
  intros H E. apply H. apply length_zero_iff_nil.
  rewrite <- (on_back_length f q), E. reflexivity.
Qed.

Lemma on_back_compose {A : Type} (f g : A -> A) (q : list A) :
  on_back f (on_back g q) = on_back (fun x => f (g x)) q.
Proof.
  destruct (snoc_cases q) as [->|(q' & x & ->)]; [reflexivity|].
  rewrite !on_back_snoc. reflexivity.
Qed.

Lemma on_back_ext {A : Type} (f g : A -> A) (q : list A) :
  (forall x, f x = g x) -> on_back f q = on_back g q.
Proof.
  intros H. destruct (snoc_cases q) as [->|(q' & x & ->)]; [reflexivity|].
  rewrite !on_back_snoc, H. reflexivity.
Qed.

Lemma on_back_id {A : Type} (q : list (list A)) :
  on_back (fun x => x ++ []) q = q.
Proof.
  destruct (snoc_cases q) as [->|(q' & x & ->)]; [reflexivity|].
  rewrite on_back_snoc, app_nil_r. reflexivity.
Qed.

Lemma loop_pow_inv {St : Type} (P : St -> Prop) (cond : St -> bool)
    (body : St -> St) :
  (forall s, P s -> P (body s)) ->
  forall k s, P s -> P (loop_pow cond body k s).
Proof.
  intros Hbody. induction k as [|k IH]; intros s Hs; simpl.
  - destruct (cond s); auto.
  - destruct (cond s); auto.
Qed.

(** The loop is reasoned about through [loop_pow_inv] only. *)
Opaque loop_pow.

Section MuxerFacts.

Context {AVFrame filter picture double : Type}.
Context {collab : Collaborators AVFrame filter picture double}.

Local Abbreviation impl := (impl filter picture double).
Local Abbreviation M := (M filter picture double).

(** Projections of the field updates. *)
Ltac fields :=
  cbn [video_streams_ audio_streams_ frame_buffer_ display_mode_ in_fps_
       format_desc_ audio_cadence_ filter_ filter_str_
       set_video_streams set_audio_streams set_frame_buffer set_display_mode
       set_audio_cadence set_filter fst snd] in *.

(** *** Pushes *)

Lemma grown_refl {A : Type} (q : list (list A)) : grown q q.
Proof. right. exists []. symmetry. apply on_back_id. Qed.

Lemma grown_more {A : Type} (q q' : list (list A)) (extra : list A) :
  (exists e, q' = on_back (fun x => x ++ e) q) ->
  exists e, on_back (fun x => x ++ extra) q' = on_back (fun x => x ++ e) q.
Proof.
  intros [e ->]. exists (e ++ extra). rewrite on_back_compose.
  apply on_back_ext. intros x. symmetry. apply app_assoc.
Qed.

(** [update_display_mode] touches the filter, the display mode and the end
    of the last video segment, nothing else; and it never leaves the mode
    [invalid]. *)
Lemma drain_filter_upto_effect (k : nat) (frame : AVFrame) (m : impl) :
  (exists e, video_streams_ (drain_filter_upto k frame m)
             = on_back (fun x => x ++ e) (video_streams_ m))
  /\ audio_streams_ (drain_filter_upto k frame m) = audio_streams_ m
  /\ audio_cadence_ (drain_filter_upto k frame m) = audio_cadence_ m
  /\ frame_buffer_ (drain_filter_upto k frame m) = frame_buffer_ m
  /\ display_mode_ (drain_filter_upto k frame m) = display_mode_ m.
Proof.
  unfold drain_filter_upto.
  apply (loop_pow_inv
           (fun s : Z * impl =>
              (exists e, video_streams_ (snd s)
                         = on_back (fun x => x ++ e) (video_streams_ m))
              /\ audio_streams_ (snd s) = audio_streams_ m
              /\ audio_cadence_ (snd s) = audio_cadence_ m
              /\ frame_buffer_ (snd s) = frame_buffer_ m
              /\ display_mode_ (snd s) = display_mode_ m)).
  - intros [n m0] (Hv & Ha & Hc & Hf & Hd). unfold drain_body. fields.
    destruct (filter_poll (filter_push (filter_ m0) frame)) as [[av|] f2];
      fields; repeat split; auto.
    apply grown_more. exact Hv.
  - fields. repeat split; auto. exists []. symmetry. apply on_back_id.
Qed.

Lemma drain_filter_effect (frame : AVFrame) (m : impl) :
  (exists e, video_streams_ (drain_filter frame m)
             = on_back (fun x => x ++ e) (video_streams_ m))
  /\ audio_streams_ (drain_filter frame m) = audio_streams_ m
  /\ audio_cadence_ (drain_filter frame m) = audio_cadence_ m
  /\ frame_buffer_ (drain_filter frame m) = frame_buffer_ m
  /\ display_mode_ (drain_filter frame m) = display_mode_ m.
Proof. unfold drain_filter. apply drain_filter_upto_effect. Qed.

Lemma set_filter_fields (f : filter) (m : impl) :
  video_streams_ (set_filter f m) = video_streams_ m
  /\ audio_streams_ (set_filter f m) = audio_streams_ m
  /\ audio_cadence_ (set_filter f m) = audio_cadence_ m
  /\ frame_buffer_ (set_filter f m) = frame_buffer_ m
  /\ display_mode_ (set_filter f m) = display_mode_ m.
Proof. repeat split. Qed.

Lemma update_display_mode_effect (frame : AVFrame) (m : impl) :
  (exists e, video_streams_ (update_display_mode frame m)
             = on_back (fun x => x ++ e) (video_streams_ m))
  /\ audio_streams_ (update_display_mode frame m) = audio_streams_ m
  /\ audio_cadence_ (update_display_mode frame m) = audio_cadence_ m
  /\ frame_buffer_ (update_display_mode frame m) = frame_buffer_ m
  /\ display_mode_ (update_display_mode frame m) <> display_mode.invalid.
Proof.
  unfold update_display_mode. cbv zeta.
  match goal with
  | |- context [set_display_mode (if display_mode.eqb ?d _ then _ else _)
                                 (set_display_mode _ m)] =>
      generalize d; intros dm0
  end.
  set (dm := if display_mode.eqb dm0 display_mode.invalid
             then display_mode.simple else dm0).
  assert (Hdm : dm <> display_mode.invalid)
    by (subst dm; destruct dm0; simpl; discriminate).
  clearbody dm.
  set (m1 := set_display_mode dm (set_display_mode display_mode.simple m)).
  assert (E1 : video_streams_ m1 = video_streams_ m) by reflexivity.
  assert (E2 : audio_streams_ m1 = audio_streams_ m) by reflexivity.
  assert (E3 : audio_cadence_ m1 = audio_cadence_ m) by reflexivity.
  assert (E4 : frame_buffer_ m1 = frame_buffer_ m) by reflexivity.
  assert (E5 : display_mode_ m1 = dm) by reflexivity.
  clearbody m1.
  match goal with
  | |- context [if negb ?c then _ else _] => destruct (negb c)
  end.
  - match goal with
    | |- context [set_filter ?f0 _] =>
        destruct (set_filter_fields f0 (drain_filter frame m1))
          as (-> & -> & -> & -> & ->)
    end.
    destruct (drain_filter_effect frame m1) as (Hv & -> & -> & -> & ->).
    rewrite <- E1. repeat split; auto. rewrite E5. exact Hdm.
  - rewrite <- E1. repeat split; auto.
    + exists []. symmetry. apply on_back_id.
    + rewrite E5. exact Hdm.
Qed.

(** What a push stores: the video stream grows at its back, and nothing
    else that the other operations read is touched. *)
Lemma store_video_effect (v : video_arg AVFrame) (m : impl) :
  grown (video_streams_ m) (video_streams_ (store_video v m))
  /\ audio_streams_ (store_video v m) = audio_streams_ m
  /\ audio_cadence_ (store_video v m) = audio_cadence_ m
  /\ frame_buffer_ (store_video v m) = frame_buffer_ m.
Proof.
  destruct v as [| | |frame]; unfold store_video.
  - repeat split; auto. apply grown_refl.
  - fields. repeat split; auto. left. reflexivity.
  - fields. repeat split; auto. right. eexists. reflexivity.
  - assert (H : exists m1 : impl,
               (if display_mode.eqb (display_mode_ m) display_mode.invalid
                then update_display_mode frame m else m) = m1
               /\ (exists e, video_streams_ m1
                             = on_back (fun x => x ++ e) (video_streams_ m))
               /\ audio_streams_ m1 = audio_streams_ m
               /\ audio_cadence_ m1 = audio_cadence_ m
               /\ frame_buffer_ m1 = frame_buffer_ m).
    { destruct (display_mode.eqb (display_mode_ m) display_mode.invalid).
      - destruct (update_display_mode_effect frame m) as (Hv & Ha & Hc & Hf & _).
        exists (update_display_mode frame m). auto.
      - exists m. repeat split; auto. exists []. symmetry. apply on_back_id. }
    destruct H as (m1 & -> & Hv & Ha & Hc & Hf). cbv zeta.
    destruct (filter_poll_all (filter_push (filter_ m1) frame)) as [av_frames f].
    fields. repeat split; auto. right. apply grown_more. exact Hv.
Qed.

Lemma store_audio_effect (a : audio_arg) (m : impl) :
  grown (audio_streams_ m) (audio_streams_ (store_audio a m))
  /\ video_streams_ (store_audio a m) = video_streams_ m
  /\ audio_cadence_ (store_audio a m) = audio_cadence_ m
  /\ frame_buffer_ (store_audio a m) = frame_buffer_ m
  /\ display_mode_ (store_audio a m) = display_mode_ m.
Proof.
  destruct a as [| | |a]; unfold store_audio; fields; repeat split; auto.
  - apply grown_refl.
  - left. reflexivity.
  - right. eexists. reflexivity.
  - right. eexists. reflexivity.
Qed.

(** The object after a push is what [store_video] / [store_audio] made of
    it; the outcome is decided afterwards, on the last segment. *)
Lemma push_video_unfold (v : video_arg AVFrame) (m : impl) :
  v <> null_video ->
  push_video v m =
    (if 32 <? size (back [] (video_streams_ (store_video v m)))
     then Thrown video_overflow else Returned tt,
     store_video v m).
Proof.
  intros Hv.
  assert (E : push_video v m =
              (fun m' : impl =>
                 if 32 <? size (back [] (video_streams_ m'))
                 then throw video_overflow m' else ret tt m') (store_video v m))
    by (destruct v; [contradiction|reflexivity..]).
  rewrite E. cbv beta.
  destruct (32 <? size (back [] (video_streams_ (store_video v m)))); reflexivity.
Qed.

Lemma push_audio_unfold (a : audio_arg) (m : impl) :
  a <> null_audio ->
  push_audio a m =
    (if audio_bound (store_audio a m)
          <? size (back [] (audio_streams_ (store_audio a m)))
     then Thrown audio_overflow else Returned tt,
     store_audio a m).
Proof.
  intros Ha.
  assert (E : push_audio a m =
              (fun m' : impl =>
                 if audio_bound m' <? size (back [] (audio_streams_ m'))
                 then throw audio_overflow m' else ret tt m') (store_audio a m))
    by (destruct a; [contradiction|reflexivity..]).
  rewrite E. cbv beta.
  destruct (audio_bound (store_audio a m)
              <? size (back [] (audio_streams_ (store_audio a m)))); reflexivity.
Qed.

Lemma push_video_state (v : video_arg AVFrame) (m : impl) :
  snd (push_video v m) = store_video v m.
Proof.
  destruct v; try (rewrite push_video_unfold by discriminate; reflexivity).
  reflexivity.
Qed.

Lemma push_audio_state (a : audio_arg) (m : impl) :
  snd (push_audio a m) = store_audio a m.
Proof.
  destruct a; try (rewrite push_audio_unfold by discriminate; reflexivity).
  reflexivity.
Qed.

(** *** Pops *)

Lemma consumed_refl {A : Type} (q : list (list A)) : consumed false q q.
Proof. repeat split. exists 0%nat. reflexivity. Qed.

Lemma consumed_trans {A : Type} (d : bool) (q1 q2 q3 : list (list A)) :
  consumed d q1 q2 -> consumed false q2 q3 -> consumed d q1 q3.
Proof.
  unfold consumed. intros (L1 & T1 & n1 & F1) (L2 & T2 & n2 & F2).
  cbv zeta in *. repeat split; try congruence.
  exists (n2 + n1)%nat. rewrite F2, F1. apply skipn_skipn.
Qed.

Lemma consumed_front {A : Type} (n : nat) (x : list A) (q : list (list A)) :
  consumed false (x :: q) (skipn n x :: q).
Proof. repeat split. exists n. reflexivity. Qed.

Lemma popped_intro (m m' : impl) :
  consumed false (video_streams_ m) (video_streams_ m') ->
  consumed false (audio_streams_ m) (audio_streams_ m') ->
  (exists n, audio_cadence_ m' = Nat.iter n (rotate 1) (audio_cadence_ m)) ->
  display_mode_ m' = display_mode_ m ->
  format_desc_ m' = format_desc_ m ->
  popped m m'.
Proof. unfold popped. auto. Qed.

Lemma popped_refl (m : impl) : popped m m.
Proof.
  apply popped_intro; try apply consumed_refl; try reflexivity.
  exists 0%nat. reflexivity.
Qed.

Lemma popped_trans (m1 m2 m3 : impl) :
  popped m1 m2 -> popped m2 m3 -> popped m1 m3.
Proof.
  intros (V1 & A1 & (n1 & C1) & D1 & F1) (V2 & A2 & (n2 & C2) & D2 & F2).
  apply popped_intro; try congruence.
  - eapply consumed_trans; eassumption.
  - eapply consumed_trans; eassumption.
  - exists (n2 + n1)%nat. rewrite C2, C1. symmetry. apply Nat.iter_add.
Qed.

Lemma pop_video_cases (m : impl) :
  (exists frame q rest,
      video_streams_ m = (frame :: q) :: rest
      /\ pop_video m = (Returned frame, set_video_streams (q :: rest) m))
  \/ ((video_streams_ m = [] \/ exists rest, video_streams_ m = [] :: rest)
      /\ pop_video m = (Undefined, m)).
Proof.
  unfold pop_video. destruct (video_streams_ m) as [|[|frame q] rest].
  - right. auto.
  - right. split; [right; exists rest|]; reflexivity.
  - left. exists frame, q, rest. auto.
Qed.

Lemma pop_audio_cases (m : impl) :
  (exists buf rest c cs,
      audio_streams_ m = buf :: rest /\ audio_cadence_ m = c :: cs
      /\ to_size_t c <= size buf
      /\ pop_audio m =
           (Returned (firstn (Z.to_nat c) buf),
            set_audio_cadence (rotate 1 (c :: cs))
              (set_audio_streams (skipn (Z.to_nat c) buf :: rest) m)))
  \/ pop_audio m = (Undefined, m).
Proof.
  unfold pop_audio.
  destruct (audio_streams_ m) as [|buf rest]; [right; reflexivity|].
  destruct (audio_cadence_ m) as [|c cs] eqn:Ec; [right; reflexivity|].
  destruct (to_size_t c <=? size buf) eqn:E; [|right; reflexivity].
  left. exists buf, rest, c, cs. apply Z.leb_le in E. auto.
Qed.

Lemma pop_video_popped (m : impl) : popped m (snd (pop_video m)).
Proof.
  destruct (pop_video_cases m) as [(frame & q & rest & Ev & ->)|[_ ->]];
    [|apply popped_refl].
  apply popped_intro; fields; try apply consumed_refl; try reflexivity.
  - rewrite Ev. apply (consumed_front 1).
  - exists 0%nat. reflexivity.
Qed.

Lemma pop_audio_popped (m : impl) : popped m (snd (pop_audio m)).
Proof.
  destruct (pop_audio_cases m) as [(buf & rest & c & cs & Ea & Ec & _ & ->)| ->];
    [|apply popped_refl].
  apply popped_intro; fields; try apply consumed_refl; try reflexivity.
  - rewrite Ea. apply consumed_front.
  - exists 1%nat. rewrite Ec. reflexivity.
Qed.

Lemma push_frame_popped (f : draw_frame picture) (m : impl) :
  popped m (snd (push_frame f m)).
Proof.
  apply popped_intro; fields; try apply consumed_refl; try reflexivity.
  exists 0%nat. reflexivity.
Qed.

Lemma bind_popped {A B : Type} (c : M A) (k : A -> M B) :
  (forall m, popped m (snd (c m))) ->
  (forall a m, popped m (snd (k a m))) ->
  forall m, popped m (snd (bind c k m)).
Proof.
  intros Hc Hk m. unfold bind. specialize (Hc m).
  destruct (c m) as [[a|e|] m1]; simpl in *; auto.
  eapply popped_trans; [exact Hc|apply Hk].
Qed.

Lemma assemble_popped (m : impl) : popped m (snd (assemble m)).
Proof.
  unfold assemble. revert m.
  apply bind_popped; [apply pop_video_popped|]. intros frame0.
  apply bind_popped; [apply pop_audio_popped|]. intros a m.
  destruct (display_mode_ m);
    repeat first
      [ apply popped_refl
      | apply push_frame_popped
      | apply bind_popped; [try apply pop_video_popped; try apply pop_audio_popped
                           |intros ?]
      | intros ? ].
Qed.

(** [assemble], branch by branch, when it returns; the frames are written
    out field by field. *)
Lemma assemble_returned (m m' : impl) (u : unit) :
  assemble m = (Returned u, m') ->
  exists frame0 a m1 m2,
    pop_video m = (Returned frame0, m1)
    /\ pop_audio m1 = (Returned a, m2)
    /\ match display_mode_ m with
       | display_mode.simple
       | display_mode.deinterlace_bob
       | display_mode.deinterlace =>
           m' = set_frame_buffer
                  (frame_buffer_ m2
                   ++ [draw_frame_of {| image_data := image_data frame0;
                                        audio_data := a |}]) m2
       | display_mode.interlace
       | display_mode.deinterlace_bob_reinterlace =>
           exists frame2 m3,
             pop_video m2 = (Returned frame2, m3)
             /\ m' = set_frame_buffer
                       (frame_buffer_ m3
                        ++ [draw_frame_interlace
                              (draw_frame_of {| image_data := image_data frame0;
                                                audio_data := a |})
                              (draw_frame_of frame2)
                              (field_mode_of (format_desc_ m))]) m3
       | display_mode.duplicate =>
           exists a2 m3,
             pop_audio m2 = (Returned a2, m3)
             /\ m' = set_frame_buffer
                       ((frame_buffer_ m3
                         ++ [draw_frame_of {| image_data := image_data frame0;
                                              audio_data := a ++ a2 |}])
                        ++ [draw_frame_of {| image_data := image_data frame0;
                                             audio_data := a ++ a2 |}]) m3
       | display_mode.half =>
           exists frame2 m3,
             pop_video m2 = (Returned frame2, m3)
             /\ m' = set_frame_buffer
                       (frame_buffer_ m3
                        ++ [draw_frame_of {| image_data := image_data frame0;
                                             audio_data := a |}]) m3
       | display_mode.invalid => False
       end.
Proof.
  unfold assemble, bind. intros H.
  pose proof (pop_video_popped m) as P1.
  destruct (pop_video m) as [[frame0| |] m1] eqn:E1; try discriminate.
  pose proof (pop_audio_popped m1) as P2.
  destruct (pop_audio m1) as [[a| |] m2] eqn:E2; try discriminate.
  exists frame0, a, m1, m2. split; [reflexivity|]. split; [exact E2|].
  simpl snd in *.
  destruct (popped_trans _ _ _ P1 P2) as (_ & _ & _ & Hd & Hf).
  rewrite <- Hd, <- Hf.
  destruct (display_mode_ m2); cbn beta iota in H.
  - injection H as _ <-. reflexivity.
  - pose proof (pop_audio_popped m2) as P3.
    destruct (pop_audio m2) as [[a2| |] m3] eqn:E3; try discriminate.
    injection H as _ <-. exists a2, m3. split; reflexivity.
  - pose proof (pop_video_popped m2) as P3.
    destruct (pop_video m2) as [[frame2| |] m3] eqn:E3; try discriminate.
    injection H as _ <-. exists frame2, m3. split; reflexivity.
  - pose proof (pop_video_popped m2) as P3.
    destruct (pop_video m2) as [[frame2| |] m3] eqn:E3; try discriminate.
    destruct P3 as (_ & _ & _ & _ & Hf3). simpl snd in Hf3.
    injection H as _ <-. exists frame2, m3. rewrite <- Hf3. split; reflexivity.
  - injection H as _ <-. reflexivity.
  - pose proof (pop_video_popped m2) as P3.
    destruct (pop_video m2) as [[frame2| |] m3] eqn:E3; try discriminate.
    destruct P3 as (_ & _ & _ & _ & Hf3). simpl snd in Hf3.
    injection H as _ <-. exists frame2, m3. rewrite <- Hf3. split; reflexivity.
  - injection H as _ <-. reflexivity.
  - discriminate.
Qed.

(** Every branch of [assemble] that returns has put a frame into
    [frame_buffer_]. *)
Lemma assemble_pushes (m m' : impl) (u : unit) :
  assemble m = (Returned u, m') -> frame_buffer_ m' <> [].
Proof.
  intros H. apply assemble_returned in H.
  destruct H as (frame0 & a & m1 & m2 & _ & _ & H).
  destruct (display_mode_ m);
    repeat match goal with
      | H : exists _, _ |- _ => destruct H
      | H : _ /\ _ |- _ => destruct H
      | H : False |- _ => contradiction
      end;
    subst m'; fields; intros E; apply app_eq_nil in E;
    destruct E as [_ E]; discriminate.
Qed.

Lemma truncate_cases (m : impl) :
  (1 < size (video_streams_ m) /\ 1 < size (audio_streams_ m)
   /\ (video_ready2 m = false \/ audio_ready2 m = false)
   /\ truncate m = set_audio_streams (tl (audio_streams_ m))
                     (set_video_streams (tl (video_streams_ m)) m))
  \/ (~ (1 < size (video_streams_ m) /\ 1 < size (audio_streams_ m)
         /\ (video_ready2 m = false \/ audio_ready2 m = false))
      /\ truncate m = m).
Proof.
  unfold truncate.
  destruct (1 <? size (video_streams_ m)) eqn:Ev;
    [apply Z.ltb_lt in Ev|apply Z.ltb_ge in Ev; right; split; [lia|reflexivity]].
  destruct (1 <? size (audio_streams_ m)) eqn:Ea;
    [apply Z.ltb_lt in Ea|apply Z.ltb_ge in Ea; right; split; [lia|reflexivity]].
  destruct (video_ready2 m), (audio_ready2 m); simpl;
    try (left; repeat split; auto; fail).
  right. split; [|reflexivity]. intros (_ & _ & [H|H]); discriminate.
Qed.

Lemma try_pop_cases (depth : nat) (m m' : impl)
    (o : outcome (option (draw_frame picture))) :
  try_pop depth m = Some (o, m') ->
  (exists f fb, frame_buffer_ m = f :: fb
                /\ o = Returned (Some f) /\ m' = set_frame_buffer fb m)
  \/ (frame_buffer_ m = [] /\ tick_ready (truncate m) = false
      /\ o = Returned None /\ m' = truncate m)
  \/ (frame_buffer_ m = [] /\ tick_ready (truncate m) = true
      /\ exists o2 m2,
           assemble (truncate m) = (o2, m2)
           /\ match o2 with
              | Returned _ =>
                  exists f fb, frame_buffer_ m2 = f :: fb
                               /\ o = Returned (Some f)
                               /\ m' = set_frame_buffer fb m2
              | Thrown e => o = Thrown e /\ m' = m2
              | Undefined => o = Undefined /\ m' = m2
              end).
Proof.
  destruct depth as [|depth]; [discriminate|]. cbn [try_pop].
  destruct (frame_buffer_ m) as [|f fb] eqn:Ef.
  2:{ intros H. injection H as <- <-. left. exists f, fb. auto. }
  unfold tick_ready.
  destruct (negb (video_ready2 (truncate m)) || negb (audio_ready2 (truncate m))
            || display_mode.eqb (display_mode_ (truncate m)) display_mode.invalid).
  { intros H. injection H as <- <-. right. left. auto. }
  intros H. right. right. repeat split.
  destruct (assemble (truncate m)) as [[u|e|] m2] eqn:Ea.
  - exists (Returned u), m2. split; [reflexivity|].
    pose proof (assemble_pushes _ _ _ Ea) as Hne.
    destruct depth as [|depth]; [discriminate|]. cbn [try_pop] in H.
    destruct (frame_buffer_ m2) as [|f fb]; [contradiction|].
    injection H as <- <-. exists f, fb. auto.
  - injection H as <- <-. exists (Thrown e), m2. auto.
  - injection H as <- <-. exists Undefined, m2. auto.
Qed.

(** Two levels of [try_pop] always suffice. *)
Lemma try_pop_two (depth : nat) (m : impl) :
  try_pop (S (S depth)) m = try_pop 2 m /\ try_pop 2 m <> None.
Proof.
  cbn [try_pop].
  destruct (frame_buffer_ m) as [|f fb]; [|split; [reflexivity|discriminate]].
  destruct (negb (video_ready2 (truncate m)) || negb (audio_ready2 (truncate m))
            || display_mode.eqb (display_mode_ (truncate m)) display_mode.invalid);
    [split; [reflexivity|discriminate]|].
  destruct (assemble (truncate m)) as [[u|e|] m2] eqn:Ea;
    try (split; [reflexivity|discriminate]).
  pose proof (assemble_pushes _ _ _ Ea) as Hne.
  destruct (frame_buffer_ m2) as [|f fb]; [contradiction|].
  split; [reflexivity|discriminate].
Qed.

(** *** Rotations *)

Lemma rotate_one_cons {A : Type} (x : A) (l : list A) :
  rotate 1 (x :: l) = l ++ [x].
Proof. reflexivity. Qed.






(** *** What each call does to the streams and the cadence *)

Lemma truncate_effect (m : impl) :
  audio_cadence_ (truncate m) = audio_cadence_ m
  /\ frame_buffer_ (truncate m) = frame_buffer_ m
  /\ display_mode_ (truncate m) = display_mode_ m
  /\ exists dropped : bool,
       consumed dropped (video_streams_ m) (video_streams_ (truncate m))
       /\ consumed dropped (audio_streams_ m) (audio_streams_ (truncate m))
       /\ (dropped = true ->
           1 < size (video_streams_ m) /\ 1 < size (audio_streams_ m)
           /\ (video_ready2 m = false \/ audio_ready2 m = false)).
Proof.
  destruct (truncate_cases m) as [(Hv & Ha & Hr & ->)|[_ ->]]; fields.
  - repeat split. exists true. unfold consumed. cbv iota zeta.
    repeat split; auto; exists 0%nat; reflexivity.
  - repeat split. exists false.
    split; [apply consumed_refl|]. split; [apply consumed_refl|]. discriminate.
Qed.

Lemma try_pop_effect (depth : nat) (m m' : impl)
    (o : outcome (option (draw_frame picture))) :
  try_pop depth m = Some (o, m') ->
  (exists n, audio_cadence_ m' = Nat.iter n (rotate 1) (audio_cadence_ m))
  /\ exists dropped : bool,
       consumed dropped (video_streams_ m) (video_streams_ m')
       /\ consumed dropped (audio_streams_ m) (audio_streams_ m')
       /\ (dropped = true ->
           frame_buffer_ m = []
           /\ 1 < size (video_streams_ m) /\ 1 < size (audio_streams_ m)
           /\ (video_ready2 m = false \/ audio_ready2 m = false)).
Proof.
  intros H. apply try_pop_cases in H.
  destruct (truncate_effect m) as (Tc & Tf & Td & dropped & Tv & Ta & Tdrop).
  destruct H as [(f & fb & Ef & -> & ->)|[(Ef & _ & -> & ->)|(Ef & _ & o2 & m2 & Ea & H)]].
  - fields. split; [exists 0%nat; reflexivity|].
    exists false. split; [apply consumed_refl|]. split; [apply consumed_refl|].
    discriminate.
  - split; [exists 0%nat; exact Tc|].
    exists dropped. split; [exact Tv|]. split; [exact Ta|].
    intros Hd. split; [exact Ef|apply Tdrop; exact Hd].
  - pose proof (assemble_popped (truncate m)) as P. rewrite Ea in P.
    cbn [snd] in P. destruct P as (Pv & Pa & (n & Pc) & _).
    assert (G : (exists n, audio_cadence_ m2
                           = Nat.iter n (rotate 1) (audio_cadence_ m))
                /\ exists dropped : bool,
                     consumed dropped (video_streams_ m) (video_streams_ m2)
                     /\ consumed dropped (audio_streams_ m) (audio_streams_ m2)
                     /\ (dropped = true ->
                         frame_buffer_ m = []
                         /\ 1 < size (video_streams_ m)
                         /\ 1 < size (audio_streams_ m)
                         /\ (video_ready2 m = false \/ audio_ready2 m = false))).
    { split; [exists n; rewrite Pc, Tc; reflexivity|].
      exists dropped. split; [eapply consumed_trans; eassumption|].
      split; [eapply consumed_trans; eassumption|].
      intros Hd. split; [exact Ef|apply Tdrop; exact Hd]. }
    destruct o2 as [u|e|].
    + destruct H as (f & fb & _ & -> & ->). fields. exact G.
    + destruct H as [-> ->]. exact G.
    + destruct H as [-> ->]. exact G.
Qed.

Lemma consumed_nonempty {A : Type} (dropped : bool) (old new : list (list A)) :
  consumed dropped old new -> old <> [] ->
  (dropped = true -> 1 < size old) -> new <> [].
Proof.
  unfold consumed, size. intros (L & _) Hne Hd E. subst new. simpl in L.
  destruct dropped.
  - specialize (Hd eq_refl). destruct old as [|x [|y old]]; simpl in *; lia.
  - destruct old; simpl in *; [contradiction|lia].
Qed.

Lemma grown_nonempty {A : Type} (old new : list (list A)) :
  grown old new -> old <> [] -> new <> [].
Proof.
  intros [->|[e ->]] H.
  - intros E. apply app_eq_nil in E. destruct E as [_ E]. discriminate.
  - apply on_back_nonempty. exact H.
Qed.

Lemma after_calls_invariant (P : impl -> Prop) :
  (forall m c, P m -> P (after_call m c)) ->
  forall cs m, P m -> P (after_calls m cs).
Proof.
  intros Hstep. unfold after_calls.
  induction cs as [|c cs IH]; intros m Hm; simpl; auto.
Qed.

(** *** Runs of pop_audio *)

Lemma sum_app (l k : list Z) : sum (l ++ k) = sum l + sum k.
Proof. induction l as [|x l IH]; simpl; [reflexivity|]. rewrite IH. lia. Qed.

Lemma sum_nonneg (l : list Z) : Forall (fun c => 0 < c < 2 ^ 31) l -> 0 <= sum l.
Proof. induction 1; simpl; lia. Qed.

Lemma firstn_plus {A : Type} (a b : nat) (l : list A) :
  firstn (a + b) l = firstn a l ++ firstn b (skipn a l).
Proof.
  revert l. induction a as [|a IH]; intros l; [reflexivity|].
  destruct l as [|x l]; simpl.
  - rewrite firstn_nil. reflexivity.
  - rewrite IH. reflexivity.
Qed.

Lemma pop_audio_times_run (pre : list Z) :
  Forall (fun c => 0 < c < 2 ^ 31) pre ->
  forall (post : list Z) (m m' : impl) (chunks : list audio_buffer),
    audio_cadence_ m = pre ++ post ->
    pop_audio_times (List.length pre) m = (Returned chunks, m') ->
    map size chunks = pre
    /\ audio_cadence_ m' = post ++ pre
    /\ List.concat chunks
       = firstn (Z.to_nat (sum pre)) (front [] (audio_streams_ m))
    /\ front [] (audio_streams_ m')
       = skipn (Z.to_nat (sum pre)) (front [] (audio_streams_ m))
    /\ sum pre <= size (front [] (audio_streams_ m)).
Proof.
  induction 1 as [|c pre Hc Hpre IH]; intros post m m' chunks Ecad H.
  - injection H as <- <-. simpl. rewrite app_nil_r.
    repeat split; auto. apply size_nonneg.
  - cbn [List.length pop_audio_times] in H. unfold bind at 1 in H.
    destruct (pop_audio_cases m)
      as [(buf & rest & c0 & cs & Ea & Ec & Hle & E)|E];
      rewrite E in H; [|discriminate].
    rewrite Ecad in Ec. simpl in Ec. injection Ec as <- <-.
    rewrite to_size_t_small in Hle by lia.
    unfold bind at 1 in H.
    rewrite rotate_one_cons, <- app_assoc in H.
    match type of H with
    | context [pop_audio_times _ ?m0] =>
        destruct (pop_audio_times (List.length pre) m0) as [[chunks'| |] m2] eqn:E2;
        try discriminate;
        specialize (IH (post ++ [c]) m0 m2 chunks')
    end.
    injection H as <- <-. fields.
    destruct (IH eq_refl E2) as (I1 & I2 & I3 & I4 & I5). clear IH.
    rewrite Ea. cbn [front hd] in *.
    pose proof (sum_nonneg pre Hpre) as Hs.
    rewrite size_skipn in I5 by lia.
    cbn [sum fold_right]. fold (sum pre).
    rewrite Z2Nat.inj_add by lia.
    repeat split.
    + cbn [map]. rewrite I1, size_firstn by lia. reflexivity.
    + rewrite I2, <- app_assoc. reflexivity.
    + cbn [List.concat]. rewrite I3. symmetry. apply firstn_plus.
    + rewrite I4, skipn_skipn. f_equal. lia.
    + lia.
Qed.

Lemma pop_audio_times_runs (pre : list Z) :
  Forall (fun c => 0 < c < 2 ^ 31) pre ->
  forall (post : list Z) (m : impl),
    audio_cadence_ m = pre ++ post ->
    sum pre <= size (front [] (audio_streams_ m)) ->
    exists chunks m', pop_audio_times (List.length pre) m = (Returned chunks, m').
Proof.
  induction 1 as [|c pre Hc Hpre IH]; intros post m Ecad Hsum.
  - exists [], m. reflexivity.
  - cbn [List.length pop_audio_times]. unfold bind at 1.
    pose proof (sum_nonneg pre Hpre) as Hs.
    cbn [sum fold_right] in Hsum. fold (sum pre) in Hsum.
    unfold pop_audio. rewrite Ecad. simpl app.
    destruct (audio_streams_ m) as [|buf rest] eqn:Ea;
      [simpl in Hsum; unfold size in Hsum; simpl in Hsum; lia|].
    cbn [front hd] in Hsum.
    rewrite to_size_t_small by lia.
    destruct (c <=? size buf) eqn:Ele; [|apply Z.leb_gt in Ele; lia].
    unfold bind at 1.
    match goal with
    | |- context [pop_audio_times _ ?m0] =>
        destruct (IH (post ++ [c]) m0) as (chunks' & m2 & E2)
    end.
    + fields. rewrite rotate_one_cons, <- app_assoc. reflexivity.
    + fields. cbn [front hd]. rewrite size_skipn by lia. lia.
    + rewrite E2. eexists _, _. reflexivity.
Qed.

Lemma tick_ready_true (m : impl) :
  tick_ready m = true ->
  video_ready2 m = true /\ audio_ready2 m = true
  /\ display_mode_ m <> display_mode.invalid.
Proof.
  unfold tick_ready.
  destruct (video_ready2 m), (audio_ready2 m), (display_mode_ m);
    simpl; intros H; try discriminate; repeat split; discriminate.
Qed.

Lemma truncate_ready (m : impl) :
  video_ready2 m = true -> audio_ready2 m = true -> truncate m = m.
Proof.
  intros Hv Ha. unfold truncate. rewrite Hv, Ha.
  rewrite andb_false_r. reflexivity.
Qed.

(** *** Duplicate, tick by tick *)

Lemma pop_video_ok (m : impl) frame q rest :
  video_streams_ m = (frame :: q) :: rest ->
  pop_video m = (Returned frame, set_video_streams (q :: rest) m).
Proof. intros E. unfold pop_video. rewrite E. reflexivity. Qed.

Lemma pop_audio_ok (m : impl) buf rest c cs :
  audio_streams_ m = buf :: rest ->
  audio_cadence_ m = c :: cs ->
  0 <= c < 2 ^ 31 -> c <= size buf ->
  pop_audio m =
    (Returned (firstn (Z.to_nat c) buf),
     set_audio_cadence (cs ++ [c])
       (set_audio_streams (skipn (Z.to_nat c) buf :: rest) m)).
Proof.
  intros Ea Ec Hc Hle. unfold pop_audio. rewrite Ea, Ec.
  rewrite to_size_t_small by lia.
  destruct (c <=? size buf) eqn:E; [reflexivity|apply Z.leb_gt in E; lia].
Qed.

(** One tick of Duplicate: what [assemble] returns, and the two calls of
    [try_pop] that hand the frame out twice. *)
Lemma duplicate_tick (m : impl) frame q vrest audio arest c0 cs c1 cs1 :
  display_mode_ m = display_mode.duplicate ->
  frame_buffer_ m = [] ->
  video_streams_ m = (frame :: q) :: vrest ->
  audio_streams_ m = audio :: arest ->
  audio_cadence_ m = c0 :: cs ->
  cs ++ [c0] = c1 :: cs1 ->
  0 <= c0 < 2 ^ 31 -> 0 <= c1 < 2 ^ 31 ->
  2 * c0 <= size audio -> c0 + c1 <= size audio ->
  exists m2,
    poll 2 m
    = ([draw_frame_of
          {| image_data := image_data frame;
             audio_data := firstn (Z.to_nat c0 + Z.to_nat c1) audio |};
        draw_frame_of
          {| image_data := image_data frame;
             audio_data := firstn (Z.to_nat c0 + Z.to_nat c1) audio |}], m2)
    /\ (forall k, poll (S (S k)) m
                  = (draw_frame_of
                       {| image_data := image_data frame;
                          audio_data
                          := firstn (Z.to_nat c0 + Z.to_nat c1) audio |}
                     :: draw_frame_of
                          {| image_data := image_data frame;
                             audio_data
                             := firstn (Z.to_nat c0 + Z.to_nat c1) audio |}
                     :: fst (poll k m2), snd (poll k m2)))
    /\ display_mode_ m2 = display_mode.duplicate
    /\ frame_buffer_ m2 = []
    /\ video_streams_ m2 = q :: vrest
    /\ audio_streams_ m2 = skipn (Z.to_nat c0 + Z.to_nat c1) audio :: arest
    /\ audio_cadence_ m2 = cs1 ++ [c1].
Proof.
  intros Hd Hfb Hv Ha Hc Hc1 R0 R1 H2 H01.
  assert (Rv : video_ready2 m = true).
  { unfold video_ready2. rewrite Hd, Hv. cbn [front hd].
    apply Z.leb_le. rewrite size_cons. pose proof (size_nonneg q). lia. }
  assert (Ra : audio_ready2 m = true).
  { unfold audio_ready2, cadence_front. rewrite Hd, Ha, Hc. cbn [front hd].
    rewrite to_size_t_small by lia.
    apply Z.leb_le. apply Z.div_le_lower_bound; lia. }
  set (f := draw_frame_of
              {| image_data := image_data frame;
                 audio_data := firstn (Z.to_nat c0 + Z.to_nat c1) audio |}).
  set (m2 := set_frame_buffer []
               (set_audio_cadence (cs1 ++ [c1])
                  (set_audio_streams
                     (skipn (Z.to_nat c0 + Z.to_nat c1) audio :: arest)
                     (set_audio_cadence (cs ++ [c0])
                        (set_audio_streams (skipn (Z.to_nat c0) audio :: arest)
                           (set_video_streams (q :: vrest) m)))))).
  assert (Easm : assemble m
                 = (Returned tt,
                    set_frame_buffer [f; f]
                      (set_audio_cadence (cs1 ++ [c1])
                         (set_audio_streams
                            (skipn (Z.to_nat c0 + Z.to_nat c1) audio :: arest)
                            (set_audio_cadence (cs ++ [c0])
                               (set_audio_streams
                                  (skipn (Z.to_nat c0) audio :: arest)
                                  (set_video_streams (q :: vrest) m))))))).
  { unfold assemble, bind.
    rewrite (pop_video_ok m frame q vrest Hv).
    rewrite (pop_audio_ok _ audio arest c0 cs) by (fields; auto; lia).
    fields. rewrite Hd.
    rewrite (pop_audio_ok _ (skipn (Z.to_nat c0) audio) arest c1 cs1)
      by (fields; auto; rewrite ?size_skipn; lia).
    unfold push_frame, modify. fields. rewrite Hfb.
    cbn [with_audio audio_data image_data app].
    rewrite skipn_skipn, (Nat.add_comm (Z.to_nat c1)).
    subst f. rewrite firstn_plus. reflexivity. }
  assert (E1 : try_pop 2 m = Some (Returned (Some f), set_frame_buffer [f] m2)).
  { cbn [try_pop]. rewrite Hfb. cbv zeta.
    rewrite (truncate_ready m Rv Ra), Rv, Ra, Hd. cbn [negb orb display_mode.eqb].
    rewrite Easm. reflexivity. }
  assert (E2 : try_pop 2 (set_frame_buffer [f] m2)
               = Some (Returned (Some f), m2)) by reflexivity.
  exists m2. split; [|split].
  - cbn [poll]. rewrite E1, E2. reflexivity.
  - intros k. cbn [poll]. rewrite E1, E2.
    destruct (poll k m2) as [fs m3]. reflexivity.
  - subst m2. fields. auto.
Qed.

Lemma duplicate_ticks_length (video : list (mutable_frame picture)) :
  forall audio cadence,
    List.length (duplicate_ticks video audio cadence)
    = (2 * List.length video)%nat.
Proof.
  induction video as [|v video IH]; intros audio cadence; [reflexivity|].
  cbn [duplicate_ticks List.length]. rewrite IH. lia.
Qed.

Lemma duplicate_run (bound : Z) (vrest : list (list (mutable_frame picture)))
    (arest : list audio_buffer) (video : list (mutable_frame picture)) :
  bound < 2 ^ 31 ->
  forall (m : impl) (audio : audio_buffer),
    display_mode_ m = display_mode.duplicate ->
    frame_buffer_ m = [] ->
    video_streams_ m = video :: vrest ->
    audio_streams_ m = audio :: arest ->
    audio_cadence_ m <> [] ->
    Forall (fun c => 0 <= c <= bound) (audio_cadence_ m) ->
    2 * size video * bound <= size audio ->
    exists m',
      (forall k, poll (2 * List.length video + k) m
                 = (duplicate_ticks video audio (audio_cadence_ m)
                    ++ fst (poll k m'), snd (poll k m')))
      /\ display_mode_ m' = display_mode.duplicate
      /\ frame_buffer_ m' = []
      /\ video_streams_ m' = [] :: vrest
      /\ tl (audio_streams_ m') = arest.
Proof.
  intros Hb. induction video as [|frame q IH];
    intros m audio Hd Hfb Hv Ha Hne Hall Hsize.
  - exists m. rewrite Ha. repeat split; auto.
    intros k. cbn [Nat.mul Nat.add List.length duplicate_ticks app].
    destruct (poll k m); reflexivity.
  - destruct (audio_cadence_ m) as [|c0 cs] eqn:Hc; [contradiction|].
    destruct (cs ++ [c0]) as [|c1 cs1] eqn:Hc1;
      [apply app_eq_nil in Hc1; destruct Hc1; discriminate|].
    assert (Hall1 : Forall (fun c => 0 <= c <= bound) (c1 :: cs1)).
    { rewrite <- Hc1. apply Forall_app. inversion Hall; subst. auto. }
    assert (R0 : 0 <= c0 <= bound) by (inversion Hall; assumption).
    assert (R1 : 0 <= c1 <= bound) by (inversion Hall1; assumption).
    rewrite size_cons in Hsize. pose proof (size_nonneg q) as Hq.
    assert (Hs2 : 2 * size q * bound + 2 * bound <= size audio) by lia.
    assert (Hq2 : 0 <= 2 * size q * bound) by nia.
    destruct (duplicate_tick m frame q vrest audio arest c0 cs c1 cs1)
      as (m2 & _ & Hpoll & Hd2 & Hfb2 & Hv2 & Ha2 & Hcad2);
      auto; try lia.
    destruct (IH m2 (skipn (Z.to_nat c0 + Z.to_nat c1) audio))
      as (m' & Hrun & Hd' & Hfb' & Hv' & Ha'); auto.
    + rewrite Hcad2. intros E. apply app_eq_nil in E. destruct E; discriminate.
    + rewrite Hcad2. apply Forall_app. inversion Hall1; subst. auto.
    + rewrite <- Z2Nat.inj_add by lia. rewrite size_skipn by lia. lia.
    + exists m'. repeat split; auto. intros k.
      replace (2 * List.length (frame :: q) + k)%nat
        with (S (S (2 * List.length q + k))) by (cbn [List.length]; lia).
      rewrite Hpoll, Hrun. cbn [fst snd duplicate_ticks front hd].
      rewrite rotate_one_cons, Hc1, rotate_one_cons, Hcad2. cbn [hd].
      reflexivity.
Qed.

Lemma poll_idle (m : impl) :
  display_mode_ m = display_mode.duplicate ->
  frame_buffer_ m = [] ->
  video_streams_ m = [[]] ->
  forall k, poll k m = ([], m).
Proof.
  intros Hd Hfb Hv.
  assert (Et : truncate m = m).
  { destruct (truncate_cases m) as [(H & _)|[_ E]]; [|exact E].
    rewrite Hv in H. unfold size in H. simpl in H. lia. }
  assert (E : try_pop 2 m = Some (Returned None, m)).
  { cbn [try_pop]. rewrite Hfb. cbv zeta. rewrite Et.
    unfold video_ready2. rewrite Hd, Hv. reflexivity. }
  induction k as [|k IH]; [reflexivity|].
  cbn [poll]. rewrite E. exact IH.
Qed.

(** *** The claims *)

(** C7.  Pushing the flush marker on a stream never throws; it puts one
    new, empty segment behind the segments of that stream, so that the
    segment count grows by exactly one and every segment buffered before is
    still there with its content; the other stream and the output buffer are
    as before.  This holds in every state of the muxer. *)
Theorem C7_flush_appends_one_empty_segment (m : impl) :
  (fst (push_video flush_video m) = Returned tt
   /\ video_streams_ (snd (push_video flush_video m)) = video_streams_ m ++ [[]]
   /\ size (video_streams_ (snd (push_video flush_video m)))
      = size (video_streams_ m) + 1
   /\ audio_streams_ (snd (push_video flush_video m)) = audio_streams_ m
   /\ frame_buffer_ (snd (push_video flush_video m)) = frame_buffer_ m)
  /\ (fst (push_audio flush_audio m) = Returned tt
      /\ audio_streams_ (snd (push_audio flush_audio m)) = audio_streams_ m ++ [[]]
      /\ size (audio_streams_ (snd (push_audio flush_audio m)))
         = size (audio_streams_ m) + 1
      /\ video_streams_ (snd (push_audio flush_audio m)) = video_streams_ m
      /\ frame_buffer_ (snd (push_audio flush_audio m)) = frame_buffer_ m).
Proof.
  split.
  - rewrite push_video_unfold by discriminate.
    unfold store_video. fields. rewrite back_snoc, size_app.
    repeat split; reflexivity.
  - rewrite push_audio_unfold by discriminate.
    unfold store_audio. fields. rewrite back_snoc, size_app.
    assert (E : (audio_bound (set_audio_streams (audio_streams_ m ++ [[]]) m)
                 <? size (@nil Z)) = false).
    { apply Z.ltb_ge. unfold audio_bound. apply to_size_t_nonneg. }
    rewrite E. repeat split; reflexivity.
Qed.

(** C10.  [try_pop] terminates with at most two nested activations: a
    depth bound of 2 is never hit, and a larger bound changes nothing.  The
    reason is that every branch of the display-mode switch that returns has
    put a frame into [frame_buffer_], so the nested call leaves through its
    first test. *)
Theorem C10_try_pop_depth_two (m : impl) :
  (exists r, try_pop 2 m = Some r)
  /\ (forall depth, try_pop (S (S depth)) m = try_pop 2 m)
  /\ (forall u m1, assemble m = (Returned u, m1) ->
        frame_buffer_ m1 <> []
        /\ exists f, try_pop 1 m1 = Some (Returned (Some f),
                                          set_frame_buffer (tl (frame_buffer_ m1)) m1)).
Proof.
  split; [|split].
  - destruct (try_pop_two 0 m) as [_ H].
    destruct (try_pop 2 m) as [r|]; [exists r; reflexivity|contradiction].
  - intros depth. apply try_pop_two.
  - intros u m1 H. pose proof (assemble_pushes _ _ _ H) as Hne.
    split; [exact Hne|]. cbn [try_pop].
    destruct (frame_buffer_ m1) as [|f fb]; [contradiction|].
    exists f. reflexivity.
Qed.

Lemma audio_bound_small (m : impl) :
  0 <= cadence_front m < 2 ^ 26 -> audio_bound m = 32 * cadence_front m.
Proof.
  intros H. unfold audio_bound.
  rewrite to_int_small by lia. apply to_size_t_small. lia.
Qed.

(** C1, amended.  The overflow test looks at the segment the push writes
    into, which is the last one (the front one only as long as no flush is
    pending).  A push with a non-null argument throws exactly when that
    segment, after the push has stored its data, holds more than 32 frames,
    respectively more than 32 times the cadence head in samples (for a head
    from 0 to 2^26 - 1, where the product fits an int); otherwise it
    returns.  So a segment of exactly 32 frames (32 heads of samples) is
    accepted and the 33rd frame (one sample more) is refused. *)
Theorem C1_overflow_iff_back_segment_exceeds
    (m : impl) (v : video_arg AVFrame) (a : audio_arg) :
  v <> null_video -> a <> null_audio -> 0 <= cadence_front m < 2 ^ 26 ->
  (fst (push_video v m) = Thrown video_overflow
   <-> 32 < size (back [] (video_streams_ (snd (push_video v m)))))
  /\ (fst (push_video v m) = Returned tt
      <-> size (back [] (video_streams_ (snd (push_video v m)))) <= 32)
  /\ (fst (push_audio a m) = Thrown audio_overflow
      <-> 32 * cadence_front m
          < size (back [] (audio_streams_ (snd (push_audio a m)))))
  /\ (fst (push_audio a m) = Returned tt
      <-> size (back [] (audio_streams_ (snd (push_audio a m))))
          <= 32 * cadence_front m).
Proof.
  intros Hv Ha Hc.
  rewrite (push_video_unfold v m Hv), (push_audio_unfold a m Ha).
  cbn [fst snd].
  assert (Eb : audio_bound (store_audio a m) = 32 * cadence_front m).
  { destruct (store_audio_effect a m) as (_ & _ & Ec & _).
    rewrite <- (audio_bound_small m Hc).
    unfold audio_bound, cadence_front. rewrite Ec. reflexivity. }
  rewrite Eb.
  destruct (32 <? size (back [] (video_streams_ (store_video v m)))) eqn:E1;
    [apply Z.ltb_lt in E1|apply Z.ltb_ge in E1];
    (destruct (32 * cadence_front m
               <? size (back [] (audio_streams_ (store_audio a m)))) eqn:E2;
     [apply Z.ltb_lt in E2|apply Z.ltb_ge in E2]);
    repeat split; intros; try discriminate; try lia; reflexivity.
Qed.

(** C2, amended.  [video_ready] holds exactly when more than one video
    segment is buffered, or the video stream has at least as many segments
    as the audio stream and its front segment holds the units of one tick
    (2 for DeinterlaceBobReinterlace, Interlace and Half, 1 otherwise).
    [audio_ready] holds exactly when more than one audio segment is
    buffered, or the audio stream has at least as many segments as the video
    stream and its front segment holds the cadence head in samples (twice
    the head for Duplicate); the cadence head is a non-negative int. *)
Theorem C2_ready_iff (m : impl) :
  0 <= cadence_front m < 2 ^ 31 ->
  (video_ready m = true
   <-> 1 < size (video_streams_ m)
       \/ (size (audio_streams_ m) <= size (video_streams_ m)
           /\ units_per_tick (display_mode_ m)
              <= size (front [] (video_streams_ m))))
  /\ (audio_ready m = true
      <-> 1 < size (audio_streams_ m)
          \/ (size (video_streams_ m) <= size (audio_streams_ m)
              /\ samples_per_tick (display_mode_ m) (cadence_front m)
                 <= size (front [] (audio_streams_ m)))).
Proof.
  intros Hc. unfold video_ready, audio_ready, video_ready2, audio_ready2.
  rewrite (to_size_t_small (cadence_front m)) by lia.
  split.
  - rewrite orb_true_iff, andb_true_iff, Z.ltb_lt, Z.leb_le.
    destruct (display_mode_ m); cbn [units_per_tick]; rewrite Z.leb_le; tauto.
  - rewrite orb_true_iff, andb_true_iff, Z.ltb_lt, Z.leb_le.
    destruct (display_mode_ m); cbn [samples_per_tick]; rewrite Z.leb_le;
      try tauto.
    assert (E : cadence_front m <= size (front [] (audio_streams_ m)) / 2
                <-> 2 * cadence_front m <= size (front [] (audio_streams_ m))).
    { split; intros H.
      - pose proof (Z.mul_div_le (size (front [] (audio_streams_ m))) 2). lia.
      - apply Z.div_le_lower_bound; lia. }
    tauto.
Qed.

Lemma projected_mono (double_rate : bool) (d : display_mode.t) (a b : Z) :
  0 <= a <= b -> 0 <= projected double_rate d a <= projected double_rate d b.
Proof.
  intros H. unfold projected.
  destruct double_rate, d; cbv zeta; try lia;
    (split; [apply Z.div_pos; lia|apply Z.div_le_mono; lia]).
Qed.

(** C4, amended.  [calc_nb_frames] is the input multiplied by 2 when the
    filter is double-rate, then halved (truncating) for Interlace,
    DeinterlaceBobReinterlace and Half or doubled for Duplicate, and this
    count reduced modulo 2^32 by the conversion to the 32-bit result.  It is
    that count itself, and it is monotonic, as long as the count stays below
    2^32: always when the filter is single-rate and the mode is not
    Duplicate, and for every input below 2^30. *)
Theorem C4_calc_nb_frames_projection (m : impl) (n : Z) :
  0 <= n < 2 ^ 32 ->
  calc_nb_frames m n
  = projected (filter_is_double_rate (filter_ m)) (display_mode_ m) n mod 2 ^ 32
  /\ (projected (filter_is_double_rate (filter_ m)) (display_mode_ m) n < 2 ^ 32 ->
      calc_nb_frames m n
      = projected (filter_is_double_rate (filter_ m)) (display_mode_ m) n
      /\ forall n', 0 <= n' <= n -> calc_nb_frames m n' <= calc_nb_frames m n)
  /\ (n < 2 ^ 30 ->
      projected (filter_is_double_rate (filter_ m)) (display_mode_ m) n < 2 ^ 32)
  /\ (filter_is_double_rate (filter_ m) = false ->
      display_mode_ m <> display_mode.duplicate ->
      projected (filter_is_double_rate (filter_ m)) (display_mode_ m) n < 2 ^ 32).
Proof.
  intros Hn.
  assert (Hcalc : forall k, 0 <= k < 2 ^ 32 ->
            calc_nb_frames m k
            = projected (filter_is_double_rate (filter_ m)) (display_mode_ m) k
              mod 2 ^ 32).
  { intros k Hk. unfold calc_nb_frames, projected, to_uint32, to_uint64.
    rewrite (Z.mod_small k (2 ^ 64)) by lia.
    destruct (filter_is_double_rate (filter_ m)), (display_mode_ m);
      rewrite ?(Z.mod_small (k * 2) (2 ^ 64)) by lia;
      rewrite ?(Z.mod_small (k * 2 * 2) (2 ^ 64)) by lia;
      reflexivity. }
  split; [apply Hcalc; exact Hn|]. split; [|split].
  - intros Hp.
    pose proof (projected_mono (filter_is_double_rate (filter_ m))
                  (display_mode_ m) 0 n ltac:(lia)) as [_ H0].
    assert (E0 : projected (filter_is_double_rate (filter_ m))
                   (display_mode_ m) 0 = 0)
      by (unfold projected;
          destruct (filter_is_double_rate (filter_ m)), (display_mode_ m);
          reflexivity).
    split.
    + rewrite Hcalc by exact Hn. apply Z.mod_small. lia.
    + intros n' Hn'.
      pose proof (projected_mono (filter_is_double_rate (filter_ m))
                    (display_mode_ m) n' n Hn') as [Hlo Hhi].
      rewrite !Hcalc by lia. rewrite !Z.mod_small by lia. exact Hhi.
  - intros Hs. unfold projected.
    destruct (filter_is_double_rate (filter_ m)), (display_mode_ m);
      cbv zeta; try lia;
      (apply Z.div_lt_upper_bound; lia).
  - intros Hd Hm. rewrite Hd. unfold projected.
    destruct (display_mode_ m); cbv zeta; try lia; try contradiction;
      (apply Z.div_lt_upper_bound; lia).
Qed.

Lemma after_call_nonempty (m : impl) (c : call AVFrame) :
  streams_nonempty m -> streams_nonempty (after_call m c).
Proof.
  intros [Hv Ha]. destruct c as [v|a|]; unfold after_call.
  - rewrite push_video_state.
    destruct (store_video_effect v m) as (G & E & _).
    split; [eapply grown_nonempty; eassumption|rewrite E; exact Ha].
  - rewrite push_audio_state.
    destruct (store_audio_effect a m) as (G & E & _).
    split; [rewrite E; exact Hv|eapply grown_nonempty; eassumption].
  - destruct (try_pop 2 m) as [[o m']|] eqn:E; [|split; assumption].
    destruct (try_pop_effect _ _ _ _ E) as (_ & dropped & Cv & Ca & Hd).
    split; eapply consumed_nonempty; try eassumption; intros D; apply Hd, D.
Qed.

(** C8.  The constructor leaves one segment in each stream, and every
    operation keeps at least one: a push only adds a segment behind the
    others or data at the end of the last one, and leaves the other stream
    alone; [try_pop] takes elements from the front of the front segments,
    and takes away a segment only at the front, of both streams at once,
    and only when both hold more than one.  So no sequence of calls ever
    empties a stream. *)
Theorem C8_streams_keep_a_segment (m : impl) :
  streams_nonempty m ->
  (forall in_fps fd fs, streams_nonempty (construct in_fps fd fs))
  /\ (forall v,
        streams_nonempty (snd (push_video v m))
        /\ grown (video_streams_ m) (video_streams_ (snd (push_video v m)))
        /\ audio_streams_ (snd (push_video v m)) = audio_streams_ m)
  /\ (forall a,
        streams_nonempty (snd (push_audio a m))
        /\ grown (audio_streams_ m) (audio_streams_ (snd (push_audio a m)))
        /\ video_streams_ (snd (push_audio a m)) = video_streams_ m)
  /\ (forall depth o m',
        try_pop depth m = Some (o, m') ->
        streams_nonempty m'
        /\ exists dropped : bool,
             consumed dropped (video_streams_ m) (video_streams_ m')
             /\ consumed dropped (audio_streams_ m) (audio_streams_ m')
             /\ (dropped = true ->
                 1 < size (video_streams_ m) /\ 1 < size (audio_streams_ m)))
  /\ (forall cs, streams_nonempty (after_calls m cs)).
Proof.
  intros Hm. split; [|split; [|split; [|split]]].
  - intros in_fps fd fs. split; discriminate.
  - intros v. split; [exact (after_call_nonempty m (call_push_video v) Hm)|].
    rewrite push_video_state.
    destruct (store_video_effect v m) as (G & E & _). auto.
  - intros a. split; [exact (after_call_nonempty m (call_push_audio a) Hm)|].
    rewrite push_audio_state.
    destruct (store_audio_effect a m) as (G & E & _). auto.
  - intros depth o m' E. destruct Hm as [Hv Ha].
    destruct (try_pop_effect _ _ _ _ E) as (_ & dropped & Cv & Ca & Hd).
    split.
    + split; eapply consumed_nonempty; try eassumption; intros D; apply Hd, D.
    + exists dropped. split; [exact Cv|]. split; [exact Ca|].
      intros D. destruct (Hd D) as (_ & H1 & H2 & _). auto.
  - intros cs. apply after_calls_invariant; [|exact Hm].
    intros m0 c. apply after_call_nonempty.
Qed.



(** C3.  Let the cadence of the format have k positive entries with sum
    S, and let the live cadence be any rotation of it.  One [pop_audio]
    that passes its check takes exactly the cadence head in samples from the
    start of the front audio segment and moves the head of the cadence
    behind the other entries.  k calls in a row that all pass their check
    take the k entries of the live cadence in order, S samples in total, all
    from the start of the front segment, and leave the cadence as it was
    before; and they do all pass as soon as the front segment holds S
    samples. *)
Theorem C3_pop_audio_cycle (base : list Z) (m : impl) :
  Forall (fun c => 0 < c < 2 ^ 31) base ->
  is_rotation (audio_cadence_ m) base ->
  (forall samples m1,
      pop_audio m = (Returned samples, m1) ->
      size samples = cadence_front m
      /\ samples = firstn (Z.to_nat (cadence_front m)) (front [] (audio_streams_ m))
      /\ front [] (audio_streams_ m1)
         = skipn (Z.to_nat (cadence_front m)) (front [] (audio_streams_ m))
      /\ size (front [] (audio_streams_ m1))
         = size (front [] (audio_streams_ m)) - cadence_front m
      /\ audio_cadence_ m1 = rotate 1 (audio_cadence_ m))
  /\ (forall chunks m',
        pop_audio_times (List.length base) m = (Returned chunks, m') ->
        map size chunks = audio_cadence_ m
        /\ size (List.concat chunks) = sum base
        /\ List.concat chunks
           = firstn (Z.to_nat (sum base)) (front [] (audio_streams_ m))
        /\ size (front [] (audio_streams_ m'))
           = size (front [] (audio_streams_ m)) - sum base
        /\ audio_cadence_ m' = audio_cadence_ m)
  /\ (sum base <= size (front [] (audio_streams_ m)) ->
      exists chunks m',
        pop_audio_times (List.length base) m = (Returned chunks, m')).
Proof.
  intros Hbase (a & b & Eb & Ecad).
  assert (Hcad : Forall (fun c => 0 < c < 2 ^ 31) (audio_cadence_ m)).
  { rewrite Ecad. rewrite Eb in Hbase. apply Forall_app in Hbase.
    apply Forall_app. tauto. }
  assert (Hlen : List.length base = List.length (audio_cadence_ m))
    by (rewrite Eb, Ecad, !length_app; lia).
  assert (Hsum : sum base = sum (audio_cadence_ m))
    by (rewrite Eb, Ecad, !sum_app; lia).
  rewrite Hlen, Hsum. clear a b Eb Ecad Hlen Hsum Hbase.
  split; [|split].
  - intros samples m1 H.
    destruct (pop_audio_cases m) as [(buf & rest & c & cs & Ea & Ec & Hle & E)|E];
      rewrite E in H; [|discriminate].
    injection H as <- <-. unfold cadence_front. fields.
    rewrite Ea, Ec in *. cbn [front hd].
    apply Forall_inv in Hcad. rewrite to_size_t_small in Hle by lia.
    rewrite size_firstn, size_skipn by lia. auto.
  - intros chunks m' H.
    destruct (pop_audio_times_run (audio_cadence_ m) Hcad [] m m' chunks)
      as (I1 & I2 & I3 & I4 & I5); [symmetry; apply app_nil_r|exact H|].
    pose proof (sum_nonneg _ Hcad) as Hs.
    split; [exact I1|]. split; [|split; [exact I3|split; [|exact I2]]].
    + rewrite I3. apply size_firstn. lia.
    + rewrite I4. apply size_skipn. lia.
  - intros Hle.
    apply (pop_audio_times_runs (audio_cadence_ m) Hcad [] m);
      [symmetry; apply app_nil_r|exact Hle].
Qed.

(** Past the first test of [try_pop], at a segment boundary. *)
Lemma truncate_then_ready (depth : nat) (m : impl) :
  frame_buffer_ m = [] ->
  1 < size (video_streams_ m) ->
  1 < size (audio_streams_ m) ->
  video_ready2 m = false \/ audio_ready2 m = false ->
  truncate m
  = set_audio_streams (tl (audio_streams_ m))
      (set_video_streams (tl (video_streams_ m)) m)
  /\ (tick_ready (truncate m) = false ->
      try_pop (S depth) m = Some (Returned None, truncate m))
  /\ (tick_ready (truncate m) = true ->
      try_pop (S (S depth)) m = try_pop (S (S depth)) (truncate m))
  /\ (forall o m',
        try_pop (S (S depth)) m = Some (o, m') ->
        consumed true (video_streams_ m) (video_streams_ m')
        /\ consumed true (audio_streams_ m) (audio_streams_ m')
        /\ size (video_streams_ m') = size (video_streams_ m) - 1
        /\ size (audio_streams_ m') = size (audio_streams_ m) - 1).
Proof.
  intros Hfb Hv Ha Hr.
  assert (Et : truncate m
               = set_audio_streams (tl (audio_streams_ m))
                   (set_video_streams (tl (video_streams_ m)) m)).
  { destruct (truncate_cases m) as [(_ & _ & _ & E)|[Hn _]]; [exact E|].
    exfalso. apply Hn. auto. }
  assert (Cv : consumed true (video_streams_ m) (video_streams_ (truncate m)))
    by (rewrite Et; fields; repeat split; exists 0%nat; reflexivity).
  assert (Ca : consumed true (audio_streams_ m) (audio_streams_ (truncate m)))
    by (rewrite Et; fields; repeat split; exists 0%nat; reflexivity).
  assert (Ef : frame_buffer_ (truncate m) = [])
    by (rewrite Et; fields; exact Hfb).
  split; [exact Et|]. split; [|split].
  - intros Hn. cbn [try_pop]. rewrite Hfb. cbv zeta.
    unfold tick_ready in Hn. apply negb_false_iff in Hn. rewrite Hn. reflexivity.
  - intros Hy. destruct (tick_ready_true _ Hy) as (Rv & Ra & _).
    cbn [try_pop]. rewrite Hfb, Ef. cbv zeta.
    rewrite (truncate_ready (truncate m) Rv Ra). reflexivity.
  - intros o m' H. apply try_pop_cases in H.
    assert (G : forall m2, popped (truncate m) m2 ->
                  consumed true (video_streams_ m) (video_streams_ m2)
                  /\ consumed true (audio_streams_ m) (audio_streams_ m2)
                  /\ size (video_streams_ m2) = size (video_streams_ m) - 1
                  /\ size (audio_streams_ m2) = size (audio_streams_ m) - 1).
    { intros m2 (Pv & Pa & _).
      pose proof (consumed_trans _ _ _ _ Cv Pv) as Cv2.
      pose proof (consumed_trans _ _ _ _ Ca Pa) as Ca2.
      split; [exact Cv2|]. split; [exact Ca2|].
      destruct Cv2 as (Lv & _). destruct Ca2 as (La & _). cbv iota in Lv, La.
      unfold size in *.
      destruct (video_streams_ m), (audio_streams_ m);
        cbn [List.length tl] in *;
        unfold audio_buffer in *; lia. }
    destruct H as [(f & fb & E & _)|[(_ & _ & _ & ->)|(_ & _ & o2 & m2 & Ea & H)]].
    + rewrite Hfb in E. discriminate.
    + apply G, popped_refl.
    + pose proof (assemble_popped (truncate m)) as P. rewrite Ea in P.
      cbn [snd] in P. specialize (G m2 P).
      destruct o2 as [u|e|].
      * destruct H as (f & fb & _ & _ & ->). fields. exact G.
      * destruct H as [_ ->]. exact G.
      * destruct H as [_ ->]. exact G.
Qed.

(** The frames waiting in [frame_buffer_] come out first, one per call,
    and nothing else moves. *)
Lemma poll_drain (fb : list (draw_frame picture)) :
  forall m : impl,
    frame_buffer_ m = fb ->
    poll (List.length fb) m = (fb, set_frame_buffer [] m).
Proof.
  induction fb as [|f fb IH]; intros m E.
  - cbn [List.length poll]. destruct m. cbn in E. subst. reflexivity.
  - cbn [List.length poll try_pop]. rewrite E.
    rewrite (IH (set_frame_buffer fb m) eq_refl). reflexivity.
Qed.

(** C6.  Let both streams hold more than one segment and let one of the
    two front segments not be ready for the display mode.  If frames are
    still waiting in the output buffer, [try_pop] hands the first of them
    out and looks at nothing else.  Otherwise it removes the two front
    segments with whatever they hold, and only then looks at readiness: it
    answers as it would on a muxer whose streams start with the next
    segments, and both streams end up one segment shorter.  So after the
    calls that empty the output buffer, the next call drops the leftover of
    the ended segments; it cannot hold the following segments back. *)
Theorem C6_truncation_drops_front_segments (depth : nat) (m : impl) :
  1 < size (video_streams_ m) ->
  1 < size (audio_streams_ m) ->
  video_ready2 m = false \/ audio_ready2 m = false ->
  (forall f fb,
      frame_buffer_ m = f :: fb ->
      try_pop (S depth) m = Some (Returned (Some f), set_frame_buffer fb m))
  /\ (frame_buffer_ m = [] ->
      truncate m
      = set_audio_streams (tl (audio_streams_ m))
          (set_video_streams (tl (video_streams_ m)) m)
      /\ (tick_ready (truncate m) = false ->
          try_pop (S depth) m = Some (Returned None, truncate m))
      /\ (tick_ready (truncate m) = true ->
          try_pop (S (S depth)) m = try_pop (S (S depth)) (truncate m))
      /\ (forall o m',
            try_pop (S (S depth)) m = Some (o, m') ->
            consumed true (video_streams_ m) (video_streams_ m')
            /\ consumed true (audio_streams_ m) (audio_streams_ m')
            /\ size (video_streams_ m') = size (video_streams_ m) - 1
            /\ size (audio_streams_ m') = size (audio_streams_ m) - 1))
  /\ (snd (poll (List.length (frame_buffer_ m)) m) = set_frame_buffer [] m
      /\ forall o m',
           try_pop (S (S depth)) (snd (poll (List.length (frame_buffer_ m)) m))
           = Some (o, m') ->
           consumed true (video_streams_ m) (video_streams_ m')
           /\ consumed true (audio_streams_ m) (audio_streams_ m')
           /\ size (video_streams_ m') = size (video_streams_ m) - 1
           /\ size (audio_streams_ m') = size (audio_streams_ m) - 1).
Proof.
  intros Hv Ha Hr. split; [|split].
  - intros f fb E. cbn [try_pop]. rewrite E. reflexivity.
  - intros Hfb. apply truncate_then_ready; assumption.
  - rewrite (poll_drain (frame_buffer_ m) m eq_refl). cbn [snd].
    split; [reflexivity|]. intros o m' H.
    destruct (truncate_then_ready depth (set_frame_buffer [] m))
      as (_ & _ & _ & G); try assumption; [reflexivity|].
    exact (G o m' H).
Qed.

(** C5.  In Duplicate mode a tick that [assemble] completes takes one
    video unit and two audio chunks, cut by two consecutive cadence entries,
    from the front segments, glues the second chunk behind the first, and
    puts the same frame into the output buffer twice: the frame whose
    picture is the picture of the unit and whose audio is the samples of the
    first chunk followed by the samples of the second.  With N video units
    in the front segment, an empty output buffer, a cadence whose entries
    are between 0 and a bound, and at least 2 N times the bound in samples
    in the front audio segment, the first 2 N calls of [try_pop] hand out
    2 N frames, each tick twice in a row: the frames of [duplicate_ticks],
    in which the k-th unit carries the chunks 2k-1 and 2k of the segment;
    and if no further video segment is waiting, later calls hand out
    nothing. *)
Theorem C5_duplicate_emits_every_tick_twice (m : impl) :
  display_mode_ m = display_mode.duplicate ->
  (forall u m',
      assemble m = (Returned u, m') ->
      exists frame q vrest audio arest c0 cs c1 cs1,
        video_streams_ m = (frame :: q) :: vrest
        /\ audio_streams_ m = audio :: arest
        /\ audio_cadence_ m = c0 :: cs
        /\ cs ++ [c0] = c1 :: cs1
        /\ video_streams_ m' = q :: vrest
        /\ audio_streams_ m'
           = skipn (Z.to_nat c1) (skipn (Z.to_nat c0) audio) :: arest
        /\ audio_cadence_ m' = cs1 ++ [c1]
        /\ frame_buffer_ m'
           = frame_buffer_ m
             ++ [draw_frame_of
                   {| image_data := image_data frame;
                      audio_data
                      := firstn (Z.to_nat c0) audio
                         ++ firstn (Z.to_nat c1) (skipn (Z.to_nat c0) audio) |};
                 draw_frame_of
                   {| image_data := image_data frame;
                      audio_data
                      := firstn (Z.to_nat c0) audio
                         ++ firstn (Z.to_nat c1) (skipn (Z.to_nat c0) audio) |}])
  /\ (forall video vrest audio arest bound,
        frame_buffer_ m = [] ->
        video_streams_ m = video :: vrest ->
        audio_streams_ m = audio :: arest ->
        audio_cadence_ m <> [] ->
        Forall (fun c => 0 <= c <= bound) (audio_cadence_ m) ->
        bound < 2 ^ 31 ->
        2 * size video * bound <= size audio ->
        fst (poll (2 * List.length video) m)
        = duplicate_ticks video audio (audio_cadence_ m)
        /\ List.length (fst (poll (2 * List.length video) m))
           = (2 * List.length video)%nat
        /\ video_streams_ (snd (poll (2 * List.length video) m)) = [] :: vrest
        /\ frame_buffer_ (snd (poll (2 * List.length video) m)) = []
        /\ (vrest = [] ->
            forall k,
              List.length (fst (poll (2 * List.length video + k) m))
              = (2 * List.length video)%nat)).
Proof.
  intros Hd. split.
  - intros u m' H. apply assemble_returned in H.
    destruct H as (frame0 & a & m1 & m2 & E1 & E2 & H). rewrite Hd in H.
    destruct H as (a2 & m3 & E3 & ->).
    destruct (pop_video_cases m) as [(frame & q & vrest & Ev & E)|[_ E]];
      rewrite E in E1; [|discriminate].
    injection E1 as <- <-.
    destruct (pop_audio_cases (set_video_streams (q :: vrest) m))
      as [(audio & arest & c0 & cs & Ea & Ec & _ & E')|E'];
      rewrite E' in E2; [|discriminate].
    injection E2 as <- <-. fields.
    match type of E3 with
    | pop_audio ?m0 = _ =>
        destruct (pop_audio_cases m0)
          as [(audio1 & arest1 & c1 & cs1 & Ea1 & Ec1 & _ & E'')|E''];
        rewrite E'' in E3; [|discriminate]
    end.
    injection E3 as <- <-. fields.
    injection Ea1 as <- <-. rewrite rotate_one_cons in Ec1.
    exists frame, q, vrest, audio, arest, c0, cs, c1, cs1.
    rewrite rotate_one_cons, <- app_assoc.
    repeat split; auto.
  - intros video vrest audio arest bound Hfb Hv Ha Hne Hall Hb Hsize.
    destruct (duplicate_run bound vrest arest video Hb m audio)
      as (m' & Hrun & Hd' & Hfb' & Hv' & Ha'); auto.
    pose proof (Hrun 0%nat) as H0. rewrite Nat.add_0_r in H0.
    cbn [poll fst snd] in H0. rewrite app_nil_r in H0.
    rewrite H0. cbn [fst snd].
    split; [reflexivity|]. split; [apply duplicate_ticks_length|].
    split; [exact Hv'|]. split; [exact Hfb'|].
    intros -> k. rewrite Hrun, (poll_idle m' Hd' Hfb' Hv' k).
    cbn [fst]. rewrite app_nil_r. apply duplicate_ticks_length.
Qed.

(** *** Further facts: ticks of the other modes *)

Lemma back_on_back {A : Type} (d : A) (f : A -> A) (q : list A) :
  q <> [] -> back d (on_back f q) = f (back d q).
Proof.
  intros H. destruct (snoc_cases q) as [->|(q' & x & ->)]; [contradiction|].
  rewrite on_back_snoc, !back_snoc. reflexivity.
Qed.

Lemma assemble_single (m : impl) frame q vrest audio arest c0 cs :
  emits_single (display_mode_ m) = true ->
  video_streams_ m = (frame :: q) :: vrest ->
  audio_streams_ m = audio :: arest ->
  audio_cadence_ m = c0 :: cs ->
  0 <= c0 < 2 ^ 31 -> c0 <= size audio ->
  assemble m
  = (Returned tt,
     set_frame_buffer
       (frame_buffer_ m
        ++ [draw_frame_of {| image_data := image_data frame;
                             audio_data := firstn (Z.to_nat c0) audio |}])
       (set_audio_cadence (cs ++ [c0])
          (set_audio_streams (skipn (Z.to_nat c0) audio :: arest)
             (set_video_streams (q :: vrest) m)))).
Proof.
  intros Hs Hv Ha Hc R0 H0.
  unfold assemble, bind.
  rewrite (pop_video_ok m frame q vrest Hv).
  rewrite (pop_audio_ok _ audio arest c0 cs) by (fields; auto; lia).
  fields. destruct (display_mode_ m); try discriminate Hs; reflexivity.
Qed.

Lemma assemble_paired (m : impl) frame1 frame2 q vrest audio arest c0 cs :
  units_per_tick (display_mode_ m) = 2 ->
  video_streams_ m = (frame1 :: frame2 :: q) :: vrest ->
  audio_streams_ m = audio :: arest ->
  audio_cadence_ m = c0 :: cs ->
  0 <= c0 < 2 ^ 31 -> c0 <= size audio ->
  assemble m
  = (Returned tt,
     set_frame_buffer
       (frame_buffer_ m
        ++ [pair_output (display_mode_ m) (field_mode_of (format_desc_ m))
              {| image_data := image_data frame1;
                 audio_data := firstn (Z.to_nat c0) audio |} frame2])
       (set_video_streams (q :: vrest)
          (set_audio_cadence (cs ++ [c0])
             (set_audio_streams (skipn (Z.to_nat c0) audio :: arest)
                (set_video_streams ((frame2 :: q) :: vrest) m))))).
Proof.
  intros Hs Hv Ha Hc R0 H0.
  unfold assemble, bind.
  rewrite (pop_video_ok m frame1 (frame2 :: q) vrest Hv).
  rewrite (pop_audio_ok _ audio arest c0 cs) by (fields; auto; lia).
  fields. destruct (display_mode_ m); try discriminate Hs; reflexivity.
Qed.

(** A ready muxer with an empty output buffer hands out the first frame
    that [assemble] has put into the buffer. *)
Lemma try_pop_ready (m m1 : impl) (u : unit) f fb :
  frame_buffer_ m = [] ->
  tick_ready m = true ->
  assemble m = (Returned u, m1) ->
  frame_buffer_ m1 = f :: fb ->
  try_pop 2 m = Some (Returned (Some f), set_frame_buffer fb m1).
Proof.
  intros Hfb Hr Ea Ef.
  destruct (tick_ready_true m Hr) as (Rv & Ra & _).
  cbn [try_pop]. rewrite Hfb. cbv zeta.
  rewrite (truncate_ready m Rv Ra).
  unfold tick_ready in Hr. apply negb_true_iff in Hr. rewrite Hr, Ea, Ef.
  reflexivity.
Qed.

(** Away from a segment boundary, a muxer that is not ready answers no
    and stays as it is. *)
Lemma try_pop_idle (depth : nat) (m : impl) :
  frame_buffer_ m = [] ->
  size (video_streams_ m) <= 1 \/ size (audio_streams_ m) <= 1 ->
  tick_ready m = false ->
  try_pop (S depth) m = Some (Returned None, m).
Proof.
  intros Hfb Hs Hr.
  assert (Et : truncate m = m).
  { destruct (truncate_cases m) as [(Hv & Ha & _)|[_ E]]; [lia|exact E]. }
  cbn [try_pop]. rewrite Hfb. cbv zeta. rewrite Et.
  unfold tick_ready in Hr. apply negb_false_iff in Hr. rewrite Hr. reflexivity.
Qed.

Lemma poll_when_idle (m : impl) :
  frame_buffer_ m = [] ->
  size (video_streams_ m) <= 1 \/ size (audio_streams_ m) <= 1 ->
  tick_ready m = false ->
  forall k, poll k m = ([], m).
Proof.
  intros Hfb Hs Hr. induction k as [|k IH]; [reflexivity|].
  cbn [poll]. rewrite (try_pop_idle 1 m Hfb Hs Hr). exact IH.
Qed.

Lemma tick_ready_intro (m : impl) :
  video_ready2 m = true -> audio_ready2 m = true ->
  display_mode_ m <> display_mode.invalid -> tick_ready m = true.
Proof.
  intros Hv Ha Hd. unfold tick_ready. rewrite Hv, Ha.
  destruct (display_mode_ m); try reflexivity. contradiction.
Qed.

Lemma cadence_step (bound c0 : Z) (cs : list Z) :
  Forall (fun c => 0 <= c <= bound) (c0 :: cs) ->
  0 <= c0 <= bound
  /\ cs ++ [c0] <> []
  /\ Forall (fun c => 0 <= c <= bound) (cs ++ [c0]).
Proof.
  intros H. inversion H; subst. split; [assumption|]. split.
  - intros E. apply app_eq_nil in E. destruct E; discriminate.
  - apply Forall_app. auto.
Qed.

Lemma single_tick (m : impl) frame q vrest audio arest c0 cs :
  emits_single (display_mode_ m) = true ->
  frame_buffer_ m = [] ->
  video_streams_ m = (frame :: q) :: vrest ->
  audio_streams_ m = audio :: arest ->
  audio_cadence_ m = c0 :: cs ->
  0 <= c0 < 2 ^ 31 -> c0 <= size audio ->
  exists m2,
    (forall k, poll (S k) m
               = (draw_frame_of {| image_data := image_data frame;
                                   audio_data := firstn (Z.to_nat c0) audio |}
                  :: fst (poll k m2), snd (poll k m2)))
    /\ display_mode_ m2 = display_mode_ m
    /\ frame_buffer_ m2 = []
    /\ video_streams_ m2 = q :: vrest
    /\ audio_streams_ m2 = skipn (Z.to_nat c0) audio :: arest
    /\ audio_cadence_ m2 = cs ++ [c0].
Proof.
  intros Hs Hfb Hv Ha Hc R0 H0.
  assert (Hr : tick_ready m = true).
  { apply tick_ready_intro.
    - unfold video_ready2. rewrite Hv. cbn [front hd]. rewrite size_cons.
      pose proof (size_nonneg q).
      destruct (display_mode_ m); try discriminate Hs; apply Z.leb_le; lia.
    - unfold audio_ready2, cadence_front. rewrite Ha, Hc. cbn [front hd].
      rewrite to_size_t_small by lia.
      destruct (display_mode_ m); try discriminate Hs; apply Z.leb_le; lia.
    - destruct (display_mode_ m); discriminate. }
  pose proof (assemble_single m frame q vrest audio arest c0 cs
                Hs Hv Ha Hc R0 H0) as Ea.
  rewrite Hfb in Ea. cbn [app] in Ea.
  match type of Ea with
  | _ = (_, ?m1) =>
      pose proof (try_pop_ready m m1 tt _ [] Hfb Hr Ea eq_refl) as Et;
      exists (set_frame_buffer [] m1)
  end.
  split.
  - intros k. cbn [poll]. rewrite Et.
    match goal with |- context [poll k ?x] => destruct (poll k x) end.
    reflexivity.
  - fields. auto.
Qed.

Lemma single_run (bound : Z) (vrest : list (list (mutable_frame picture)))
    (arest : list audio_buffer) (video : list (mutable_frame picture)) :
  bound < 2 ^ 31 ->
  forall (m : impl) (audio : audio_buffer),
    emits_single (display_mode_ m) = true ->
    frame_buffer_ m = [] ->
    video_streams_ m = video :: vrest ->
    audio_streams_ m = audio :: arest ->
    audio_cadence_ m <> [] ->
    Forall (fun c => 0 <= c <= bound) (audio_cadence_ m) ->
    size video * bound <= size audio ->
    exists m',
      (forall k, poll (List.length video + k) m
                 = (single_ticks video audio (audio_cadence_ m)
                    ++ fst (poll k m'), snd (poll k m')))
      /\ display_mode_ m' = display_mode_ m
      /\ frame_buffer_ m' = []
      /\ video_streams_ m' = [] :: vrest
      /\ tl (audio_streams_ m') = arest.
Proof.
  intros Hb. induction video as [|frame q IH];
    intros m audio Hs Hfb Hv Ha Hne Hall Hsize.
  - exists m. rewrite Ha. repeat split; auto.
    intros k. cbn [Nat.add List.length single_ticks app].
    destruct (poll k m); reflexivity.
  - destruct (audio_cadence_ m) as [|c0 cs] eqn:Hc; [contradiction|].
    destruct (cadence_step bound c0 cs Hall) as (R0 & Hne1 & Hall1).
    rewrite size_cons in Hsize. pose proof (size_nonneg q) as Hq.
    assert (Hq2 : 0 <= size q * bound) by nia.
    destruct (single_tick m frame q vrest audio arest c0 cs)
      as (m2 & Hpoll & Hd2 & Hfb2 & Hv2 & Ha2 & Hcad2); auto; try lia.
    destruct (IH m2 (skipn (Z.to_nat c0) audio))
      as (m' & Hrun & Hd' & Hfb' & Hv' & Ha'); auto.
    + rewrite Hd2. exact Hs.
    + rewrite Hcad2. exact Hne1.
    + rewrite Hcad2. exact Hall1.
    + rewrite size_skipn by lia. lia.
    + exists m'. repeat split; auto; [|congruence]. intros k.
      cbn [List.length Nat.add]. rewrite Hpoll, Hrun.
      cbn [fst snd single_ticks front hd].
      rewrite rotate_one_cons, Hcad2. reflexivity.
Qed.

Lemma paired_tick (m : impl) frame1 frame2 q vrest audio arest c0 cs :
  units_per_tick (display_mode_ m) = 2 ->
  frame_buffer_ m = [] ->
  video_streams_ m = (frame1 :: frame2 :: q) :: vrest ->
  audio_streams_ m = audio :: arest ->
  audio_cadence_ m = c0 :: cs ->
  0 <= c0 < 2 ^ 31 -> c0 <= size audio ->
  exists m2,
    (forall k, poll (S k) m
               = (pair_output (display_mode_ m) (field_mode_of (format_desc_ m))
                    {| image_data := image_data frame1;
                       audio_data := firstn (Z.to_nat c0) audio |} frame2
                  :: fst (poll k m2), snd (poll k m2)))
    /\ display_mode_ m2 = display_mode_ m
    /\ format_desc_ m2 = format_desc_ m
    /\ frame_buffer_ m2 = []
    /\ video_streams_ m2 = q :: vrest
    /\ audio_streams_ m2 = skipn (Z.to_nat c0) audio :: arest
    /\ audio_cadence_ m2 = cs ++ [c0].
Proof.
  intros Hs Hfb Hv Ha Hc R0 H0.
  assert (Hr : tick_ready m = true).
  { apply tick_ready_intro.
    - unfold video_ready2. rewrite Hv. cbn [front hd]. rewrite !size_cons.
      pose proof (size_nonneg q).
      destruct (display_mode_ m); try discriminate Hs; apply Z.leb_le; lia.
    - unfold audio_ready2, cadence_front. rewrite Ha, Hc. cbn [front hd].
      rewrite to_size_t_small by lia.
      destruct (display_mode_ m); try discriminate Hs; apply Z.leb_le; lia.
    - destruct (display_mode_ m); discriminate. }
  pose proof (assemble_paired m frame1 frame2 q vrest audio arest c0 cs
                Hs Hv Ha Hc R0 H0) as Ea.
  rewrite Hfb in Ea. cbn [app] in Ea.
  match type of Ea with
  | _ = (_, ?m1) =>
      pose proof (try_pop_ready m m1 tt _ [] Hfb Hr Ea eq_refl) as Et;
      exists (set_frame_buffer [] m1)
  end.
  split.
  - intros k. cbn [poll]. rewrite Et.
    match goal with |- context [poll k ?x] => destruct (poll k x) end.
    reflexivity.
  - fields. auto 10.
Qed.

Lemma paired_run (bound : Z) (vrest : list (list (mutable_frame picture)))
    (arest : list audio_buffer) (leftover : list (mutable_frame picture))
    (pairs : list (mutable_frame picture * mutable_frame picture)) :
  bound < 2 ^ 31 ->
  forall (m : impl) (audio : audio_buffer),
    units_per_tick (display_mode_ m) = 2 ->
    frame_buffer_ m = [] ->
    video_streams_ m = (unpair pairs ++ leftover) :: vrest ->
    audio_streams_ m = audio :: arest ->
    audio_cadence_ m <> [] ->
    Forall (fun c => 0 <= c <= bound) (audio_cadence_ m) ->
    size pairs * bound <= size audio ->
    exists m',
      (forall k, poll (List.length pairs + k) m
                 = (paired_ticks (display_mode_ m)
                      (field_mode_of (format_desc_ m)) pairs audio
                      (audio_cadence_ m)
                    ++ fst (poll k m'), snd (poll k m')))
      /\ display_mode_ m' = display_mode_ m
      /\ frame_buffer_ m' = []
      /\ video_streams_ m' = leftover :: vrest
      /\ tl (audio_streams_ m') = arest.
Proof.
  intros Hb. induction pairs as [|[v1 v2] pairs IH];
    intros m audio Hs Hfb Hv Ha Hne Hall Hsize.
  - exists m. rewrite Ha. repeat split; auto.
    intros k. cbn [Nat.add List.length paired_ticks app].
    destruct (poll k m); reflexivity.
  - destruct (audio_cadence_ m) as [|c0 cs] eqn:Hc; [contradiction|].
    destruct (cadence_step bound c0 cs Hall) as (R0 & Hne1 & Hall1).
    rewrite size_cons in Hsize. pose proof (size_nonneg pairs) as Hq.
    assert (Hq2 : 0 <= size pairs * bound) by nia.
    destruct (paired_tick m v1 v2 (unpair pairs ++ leftover) vrest
                audio arest c0 cs)
      as (m2 & Hpoll & Hd2 & Hf2 & Hfb2 & Hv2 & Ha2 & Hcad2); auto; try lia.
    destruct (IH m2 (skipn (Z.to_nat c0) audio))
      as (m' & Hrun & Hd' & Hfb' & Hv' & Ha'); auto.
    + rewrite Hd2. exact Hs.
    + rewrite Hcad2. exact Hne1.
    + rewrite Hcad2. exact Hall1.
    + rewrite size_skipn by lia. lia.
    + exists m'. repeat split; auto; [|congruence]. intros k.
      cbn [List.length Nat.add]. rewrite Hpoll, Hrun.
      cbn [fst snd paired_ticks front hd].
      rewrite rotate_one_cons, Hcad2, Hd2, Hf2. reflexivity.
Qed.

Lemma single_ticks_length (video : list (mutable_frame picture)) :
  forall audio cadence,
    List.length (single_ticks video audio cadence) = List.length video.
Proof.
  induction video as [|v video IH]; intros audio cadence; [reflexivity|].
  cbn [single_ticks List.length]. rewrite IH. reflexivity.
Qed.

Lemma paired_ticks_length d fm
    (pairs : list (mutable_frame picture * mutable_frame picture)) :
  forall audio cadence,
    List.length (paired_ticks d fm pairs audio cadence) = List.length pairs.
Proof.
  induction pairs as [|[v1 v2] pairs IH]; intros audio cadence; [reflexivity|].
  cbn [paired_ticks List.length]. rewrite IH. reflexivity.
Qed.

Lemma tick_ready_no_video (m : impl) :
  video_ready2 m = false -> tick_ready m = false.
Proof. intros H. unfold tick_ready. rewrite H. reflexivity. Qed.

(** *** Further properties *)

(** X1.  Simple, Deinterlace and DeinterlaceBob hand out one frame per
    video unit, in arrival order, each with the next cadence chunk of the
    front audio segment: with N units in the front video segment, an empty
    output buffer, cadence entries between 0 and a bound, and N times the
    bound in samples, N calls of [try_pop] give the N frames of
    [single_ticks] (the k-th has the picture of the k-th unit and, as its
    audio, the samples of the k-th chunk) and leave the front video segment
    empty; with no further video segment waiting, later calls give nothing
    and change nothing. *)
Theorem X1_single_modes_one_frame_per_unit (m : impl)
    video vrest audio arest bound :
  emits_single (display_mode_ m) = true ->
  frame_buffer_ m = [] ->
  video_streams_ m = video :: vrest ->
  audio_streams_ m = audio :: arest ->
  audio_cadence_ m <> [] ->
  Forall (fun c => 0 <= c <= bound) (audio_cadence_ m) ->
  bound < 2 ^ 31 ->
  size video * bound <= size audio ->
  fst (poll (List.length video) m)
  = single_ticks video audio (audio_cadence_ m)
  /\ List.length (fst (poll (List.length video) m)) = List.length video
  /\ video_streams_ (snd (poll (List.length video) m)) = [] :: vrest
  /\ frame_buffer_ (snd (poll (List.length video) m)) = []
  /\ (vrest = [] ->
      forall k, poll (List.length video + k) m = poll (List.length video) m).
Proof.
  intros Hs Hfb Hv Ha Hne Hall Hb Hsize.
  destruct (single_run bound vrest arest video Hb m audio)
    as (m' & Hrun & Hd' & Hfb' & Hv' & Ha'); auto.
  pose proof (Hrun 0%nat) as H0. rewrite Nat.add_0_r in H0.
  cbn [poll fst snd] in H0. rewrite app_nil_r in H0.
  rewrite H0. cbn [fst snd].
  split; [reflexivity|]. split; [apply single_ticks_length|].
  split; [exact Hv'|]. split; [exact Hfb'|].
  intros -> k. rewrite Hrun.
  assert (Hidle : tick_ready m' = false).
  { apply tick_ready_no_video. unfold video_ready2. rewrite Hv'.
    rewrite Hd'. destruct (display_mode_ m); try discriminate Hs; reflexivity. }
  rewrite (poll_when_idle m' Hfb') by
    (try exact Hidle; left; rewrite Hv'; unfold size; simpl; lia).
  cbn [fst snd]. rewrite app_nil_r. reflexivity.
Qed.

(** X2.  Half, Interlace and DeinterlaceBobReinterlace use two video units
    per output frame: with 2 N units (and possibly one more) in the front
    video segment, an empty output buffer, cadence entries between 0 and a
    bound, and N times the bound in samples, N calls of [try_pop] give N
    frames.  The k-th one is made of units 2k-1 and 2k in arrival order:
    Half keeps the first and throws the second away, the two others
    interlace the first with the second in the field order of the format;
    the audio is the k-th cadence chunk, on the first unit: that part of
    the frame has the picture of unit 2k-1 and the samples of the chunk, and
    the second unit goes in as it was buffered.  A unit left over stays in
    the segment, and with no further video segment waiting later calls give
    nothing and change nothing. *)
Theorem X2_paired_modes_one_frame_per_two_units (m : impl)
    pairs leftover vrest audio arest bound :
  units_per_tick (display_mode_ m) = 2 ->
  frame_buffer_ m = [] ->
  video_streams_ m = (unpair pairs ++ leftover) :: vrest ->
  (List.length leftover <= 1)%nat ->
  audio_streams_ m = audio :: arest ->
  audio_cadence_ m <> [] ->
  Forall (fun c => 0 <= c <= bound) (audio_cadence_ m) ->
  bound < 2 ^ 31 ->
  size pairs * bound <= size audio ->
  fst (poll (List.length pairs) m)
  = paired_ticks (display_mode_ m) (field_mode_of (format_desc_ m))
      pairs audio (audio_cadence_ m)
  /\ List.length (fst (poll (List.length pairs) m)) = List.length pairs
  /\ video_streams_ (snd (poll (List.length pairs) m)) = leftover :: vrest
  /\ frame_buffer_ (snd (poll (List.length pairs) m)) = []
  /\ (vrest = [] ->
      forall k, poll (List.length pairs + k) m = poll (List.length pairs) m).
Proof.
  intros Hs Hfb Hv Hl Ha Hne Hall Hb Hsize.
  destruct (paired_run bound vrest arest leftover pairs Hb m audio)
    as (m' & Hrun & Hd' & Hfb' & Hv' & Ha'); auto.
  pose proof (Hrun 0%nat) as H0. rewrite Nat.add_0_r in H0.
  cbn [poll fst snd] in H0. rewrite app_nil_r in H0.
  rewrite H0. cbn [fst snd].
  split; [reflexivity|]. split; [apply paired_ticks_length|].
  split; [exact Hv'|]. split; [exact Hfb'|].
  intros -> k. rewrite Hrun.
  assert (Hidle : tick_ready m' = false).
  { apply tick_ready_no_video. unfold video_ready2. rewrite Hv'.
    rewrite Hd'. cbn [front hd].
    destruct (display_mode_ m); try discriminate Hs;
      apply Z.leb_gt; unfold size; lia. }
  rewrite (poll_when_idle m' Hfb') by
    (try exact Hidle; left; rewrite Hv'; unfold size; simpl; lia).
  cbn [fst snd]. rewrite app_nil_r. reflexivity.
Qed.

Lemma front_has_one {A : Type} (q : list (list A)) :
  1 <= size (front [] q) -> exists x l rest, q = (x :: l) :: rest.
Proof.
  destruct q as [|[|x l] rest]; unfold size; simpl; try lia.
  intros _. exists x, l, rest. reflexivity.
Qed.

Lemma front_has_two {A : Type} (q : list (list A)) :
  2 <= size (front [] q) -> exists x y l rest, q = (x :: y :: l) :: rest.
Proof.
  destruct q as [|[|x [|y l]] rest]; unfold size; simpl; try lia.
  intros _. exists x, y, l, rest. reflexivity.
Qed.

Lemma assemble_duplicate_state (m : impl)
    frame q vrest audio arest c0 cs c1 cs1 :
  display_mode_ m = display_mode.duplicate ->
  video_streams_ m = (frame :: q) :: vrest ->
  audio_streams_ m = audio :: arest ->
  audio_cadence_ m = c0 :: cs ->
  cs ++ [c0] = c1 :: cs1 ->
  0 <= c0 < 2 ^ 31 -> 0 <= c1 < 2 ^ 31 ->
  c0 + c1 <= size audio ->
  exists m1 f,
    assemble m = (Returned tt, m1)
    /\ frame_buffer_ m1 = frame_buffer_ m ++ [f; f]
    /\ video_streams_ m1 = q :: vrest
    /\ audio_streams_ m1
       = skipn (Z.to_nat c1) (skipn (Z.to_nat c0) audio) :: arest.
Proof.
  intros Hd Hv Ha Hc Hc1 R0 R1 H01.
  unfold assemble, bind.
  rewrite (pop_video_ok m frame q vrest Hv).
  rewrite (pop_audio_ok _ audio arest c0 cs) by (fields; auto; lia).
  fields. rewrite Hd.
  rewrite (pop_audio_ok _ (skipn (Z.to_nat c0) audio) arest c1 cs1)
    by (fields; auto; rewrite ?size_skipn; lia).
  unfold push_frame, modify. fields.
  eexists _, _. split; [reflexivity|]. fields.
  rewrite <- app_assoc. repeat split; reflexivity.
Qed.

(** X3.  Readiness is enough for a frame: when the output buffer is empty,
    both front segments pass the readiness test of the display mode, a mode
    has been chosen, and the cadence holds non-negative ints, [try_pop]
    returns a frame and takes the units of one tick from the front video
    segment and the cadence head (in Duplicate the head and the next entry)
    from the front audio segment.  For Duplicate this needs the next cadence
    entry not to exceed the head, since the test only looks at the head. *)
Theorem X3_ready_tick_is_handed_out (m : impl) :
  frame_buffer_ m = [] ->
  audio_streams_ m <> [] ->
  audio_cadence_ m <> [] ->
  Forall (fun c => 0 <= c < 2 ^ 31) (audio_cadence_ m) ->
  tick_ready m = true ->
  (display_mode_ m = display_mode.duplicate ->
   front 0 (rotate 1 (audio_cadence_ m)) <= cadence_front m) ->
  exists f m',
    try_pop 2 m = Some (Returned (Some f), m')
    /\ size (front [] (video_streams_ m'))
       = size (front [] (video_streams_ m)) - units_per_tick (display_mode_ m)
    /\ size (front [] (audio_streams_ m'))
       = size (front [] (audio_streams_ m))
         - (cadence_front m
            + match display_mode_ m with
              | display_mode.duplicate => front 0 (rotate 1 (audio_cadence_ m))
              | _ => 0
              end).
Proof.
  intros Hfb Hane Hcne Hall Hr Hdup.
  destruct (tick_ready_true m Hr) as (Rv & Ra & Hd).
  destruct (audio_streams_ m) as [|audio arest] eqn:Ha; [contradiction|].
  destruct (audio_cadence_ m) as [|c0 cs] eqn:Hc; [contradiction|].
  assert (R0 : 0 <= c0 < 2 ^ 31) by (inversion Hall; assumption).
  unfold cadence_front in *. rewrite Hc in *. cbn [front hd] in *.
  unfold video_ready2 in Rv. unfold audio_ready2, cadence_front in Ra.
  rewrite Ha, Hc in Ra. cbn [front hd] in Ra.
  rewrite to_size_t_small in Ra by lia.
  destruct (emits_single (display_mode_ m)) eqn:Hs;
    [|destruct (Z.eq_dec (units_per_tick (display_mode_ m)) 2) as [Hp|Hp]].
  - assert (Hv1 : 1 <= size (front [] (video_streams_ m)))
      by (destruct (display_mode_ m); try discriminate Hs;
          apply Z.leb_le; exact Rv).
    assert (Ha1 : c0 <= size audio)
      by (destruct (display_mode_ m); try discriminate Hs;
          apply Z.leb_le; exact Ra).
    destruct (front_has_one _ Hv1) as (frame & q & vrest & Hv).
    pose proof (assemble_single m frame q vrest audio arest c0 cs
                  Hs Hv Ha Hc R0 Ha1) as Ea.
    rewrite Hfb in Ea. cbn [app] in Ea.
    eexists _, _. split; [exact (try_pop_ready _ _ _ _ _ Hfb Hr Ea eq_refl)|].
    fields. rewrite Hv. cbn [front hd].
    rewrite size_skipn, size_cons by (pose proof (size_nonneg audio); lia).
    destruct (display_mode_ m); try discriminate Hs;
      cbn [units_per_tick]; lia.
  - assert (Hv1 : 2 <= size (front [] (video_streams_ m)))
      by (destruct (display_mode_ m); try discriminate Hp;
          apply Z.leb_le; exact Rv).
    assert (Ha1 : c0 <= size audio)
      by (destruct (display_mode_ m); try discriminate Hp;
          apply Z.leb_le; exact Ra).
    destruct (front_has_two _ Hv1) as (frame1 & frame2 & q & vrest & Hv).
    pose proof (assemble_paired m frame1 frame2 q vrest audio arest c0 cs
                  Hp Hv Ha Hc R0 Ha1) as Ea.
    rewrite Hfb in Ea. cbn [app] in Ea.
    eexists _, _. split; [exact (try_pop_ready _ _ _ _ _ Hfb Hr Ea eq_refl)|].
    fields. rewrite Hv. cbn [front hd].
    rewrite size_skipn, !size_cons by (pose proof (size_nonneg audio); lia).
    rewrite Hp.
    destruct (display_mode_ m); try discriminate Hp; lia.
  - assert (Hdm : display_mode_ m = display_mode.duplicate)
      by (destruct (display_mode_ m); try discriminate Hs;
          try reflexivity; try contradiction; exfalso; apply Hp; reflexivity).
    rewrite Hdm in *. specialize (Hdup eq_refl).
    rewrite rotate_one_cons in *.
    destruct (cs ++ [c0]) as [|c1 cs1] eqn:Hc1;
      [apply app_eq_nil in Hc1; destruct Hc1; discriminate|].
    cbn [front hd] in *.
    assert (R1 : 0 <= c1 < 2 ^ 31).
    { assert (F : Forall (fun c => 0 <= c < 2 ^ 31) (c1 :: cs1))
        by (rewrite <- Hc1; apply Forall_app; inversion Hall; subst; auto).
      inversion F; assumption. }
    apply Z.leb_le in Rv, Ra.
    assert (H2 : 2 * c0 <= size audio)
      by (pose proof (Z.mul_div_le (size audio) 2); lia).
    destruct (front_has_one _ Rv) as (frame & q & vrest & Hv).
    destruct (assemble_duplicate_state m frame q vrest audio arest c0 cs c1 cs1)
      as (m1 & f & Ea & Ef & Ev1 & Ea1); auto; try lia.
    rewrite Hfb in Ef. cbn [app] in Ef.
    eexists _, _. split; [exact (try_pop_ready _ _ _ _ _ Hfb Hr Ea Ef)|].
    fields. rewrite Ev1, Ea1, Hv. cbn [front hd units_per_tick].
    rewrite !size_skipn, size_cons by (rewrite ?size_skipn; lia). lia.
Qed.

(** X4.  In Duplicate mode the readiness test compares twice the cadence
    head with the front audio segment, but the second [pop_audio] of the
    tick takes the next cadence entry.  When that entry is larger than the
    head and the segment holds at least twice the head but less than head
    plus next entry, the muxer counts as ready, and [try_pop] runs into the
    check of line 253 on its second [pop_audio]: by then the video unit and
    the first chunk have left the streams and the cadence has moved one
    step, and no frame has reached the output buffer. *)
Theorem X4_duplicate_second_chunk_is_not_checked (depth : nat) (m : impl)
    frame q vrest audio arest c0 cs c1 cs1 :
  display_mode_ m = display_mode.duplicate ->
  frame_buffer_ m = [] ->
  video_streams_ m = (frame :: q) :: vrest ->
  audio_streams_ m = audio :: arest ->
  audio_cadence_ m = c0 :: cs ->
  cs ++ [c0] = c1 :: cs1 ->
  0 <= c0 < 2 ^ 31 -> 0 <= c1 < 2 ^ 31 ->
  2 * c0 <= size audio ->
  size audio < c0 + c1 ->
  tick_ready m = true
  /\ try_pop (S depth) m
     = Some (Undefined,
             set_audio_cadence (c1 :: cs1)
               (set_audio_streams (skipn (Z.to_nat c0) audio :: arest)
                  (set_video_streams (q :: vrest) m))).
Proof.
  intros Hd Hfb Hv Ha Hc Hc1 R0 R1 H2 Hlt.
  assert (Rv : video_ready2 m = true).
  { unfold video_ready2. rewrite Hd, Hv. cbn [front hd].
    apply Z.leb_le. rewrite size_cons. pose proof (size_nonneg q). lia. }
  assert (Ra : audio_ready2 m = true).
  { unfold audio_ready2, cadence_front. rewrite Hd, Ha, Hc. cbn [front hd].
    rewrite to_size_t_small by lia.
    apply Z.leb_le. apply Z.div_le_lower_bound; lia. }
  assert (Hr : tick_ready m = true)
    by (apply tick_ready_intro; auto; rewrite Hd; discriminate).
  split; [exact Hr|].
  assert (Ea : assemble m
               = (Undefined,
                  set_audio_cadence (c1 :: cs1)
                    (set_audio_streams (skipn (Z.to_nat c0) audio :: arest)
                       (set_video_streams (q :: vrest) m)))).
  { unfold assemble, bind.
    rewrite (pop_video_ok m frame q vrest Hv).
    rewrite (pop_audio_ok _ audio arest c0 cs) by (fields; auto; lia).
    fields. rewrite Hd, Hc1. unfold pop_audio. fields.
    rewrite to_size_t_small by lia.
    destruct (c1 <=? size (skipn (Z.to_nat c0) audio)) eqn:E; [|reflexivity].
    apply Z.leb_le in E. rewrite size_skipn in E by lia. lia. }
  cbn [try_pop]. rewrite Hfb. cbv zeta.
  rewrite (truncate_ready m Rv Ra).
  unfold tick_ready in Hr. apply negb_true_iff in Hr. rewrite Hr, Ea.
  reflexivity.
Qed.

(** [pop_video] and [pop_audio] return or hit undefined behaviour; they
    never throw and never touch the output buffer. *)
Lemma pop_video_quiet (m : impl) :
  is_thrown (fst (pop_video m)) = false
  /\ frame_buffer_ (snd (pop_video m)) = frame_buffer_ m
  /\ display_mode_ (snd (pop_video m)) = display_mode_ m.
Proof.
  destruct (pop_video_cases m) as [(frame & q & rest & _ & ->)|[_ ->]];
    repeat split.
Qed.

Lemma pop_audio_quiet (m : impl) :
  is_thrown (fst (pop_audio m)) = false
  /\ frame_buffer_ (snd (pop_audio m)) = frame_buffer_ m
  /\ display_mode_ (snd (pop_audio m)) = display_mode_ m.
Proof.
  destruct (pop_audio_cases m) as [(buf & rest & c & cs & _ & _ & _ & ->)| ->];
    repeat split.
Qed.

(** The outcome of [assemble] and its effect on the output buffer: one
    frame, or the same frame twice, behind the frames already there when it
    returns; nothing when it does not; and it throws only without a display
    mode. *)
Lemma assemble_buffer (m : impl) :
  match fst (assemble m) with
  | Returned _ =>
      exists f, frame_buffer_ (snd (assemble m)) = frame_buffer_ m ++ [f]
                \/ frame_buffer_ (snd (assemble m)) = frame_buffer_ m ++ [f; f]
  | Thrown _ =>
      display_mode_ m = display_mode.invalid
      /\ frame_buffer_ (snd (assemble m)) = frame_buffer_ m
  | Undefined => frame_buffer_ (snd (assemble m)) = frame_buffer_ m
  end.
Proof.
  unfold assemble, bind.
  destruct (pop_video_quiet m) as (T1 & B1 & D1).
  destruct (pop_video m) as [[frame0|e|] m1]; cbn [fst snd] in *;
    [|discriminate|exact B1].
  destruct (pop_audio_quiet m1) as (T2 & B2 & D2).
  destruct (pop_audio m1) as [[a|e|] m2]; cbn [fst snd] in *;
    [|discriminate|congruence].
  assert (B : frame_buffer_ m2 = frame_buffer_ m) by congruence.
  assert (D : display_mode_ m2 = display_mode_ m) by congruence.
  rewrite <- B, <- D. clear T1 B1 D1 T2 B2 D2 B D.
  destruct (display_mode_ m2) eqn:Hd; cbn [fst snd].
  - eexists. left. reflexivity.
  - destruct (pop_audio_quiet m2) as (T3 & B3 & _).
    destruct (pop_audio m2) as [[a2|e|] m3]; cbn [fst snd] in *;
      [|discriminate|exact B3].
    eexists. right. rewrite <- B3. unfold bind, push_frame, modify. fields.
    rewrite <- app_assoc. reflexivity.
  - destruct (pop_video_quiet m2) as (T3 & B3 & _).
    destruct (pop_video m2) as [[frame2|e|] m3]; cbn [fst snd] in *;
      [|discriminate|exact B3].
    eexists. left. rewrite <- B3. reflexivity.
  - destruct (pop_video_quiet m2) as (T3 & B3 & _).
    destruct (pop_video m2) as [[frame2|e|] m3]; cbn [fst snd] in *;
      [|discriminate|exact B3].
    eexists. left. rewrite <- B3. reflexivity.
  - eexists. left. reflexivity.
  - destruct (pop_video_quiet m2) as (T3 & B3 & _).
    destruct (pop_video m2) as [[frame2|e|] m3]; cbn [fst snd] in *;
      [|discriminate|exact B3].
    eexists. left. rewrite <- B3. reflexivity.
  - eexists. left. reflexivity.
  - split; reflexivity.
Qed.

(** X5.  [try_pop] never throws: the [invalid_operation] of the default
    branch (line 238) is out of reach, because the test of line 195 answers
    no while no display mode is chosen and the pops in between leave the
    mode alone.  (The modes are the eight of the spec.) *)
Theorem X5_try_pop_never_throws (depth : nat) (m m' : impl)
    (o : outcome (option (draw_frame picture))) :
  try_pop depth m = Some (o, m') -> is_thrown o = false.
Proof.
  intros H. apply try_pop_cases in H.
  destruct H as [(f & fb & _ & -> & _)|[(_ & _ & -> & _)|(_ & Hr & o2 & m2 & Ea & H)]];
    try reflexivity.
  destruct (tick_ready_true _ Hr) as (_ & _ & Hd).
  pose proof (assemble_buffer (truncate m)) as B. rewrite Ea in B.
  cbn [fst snd] in B.
  destruct o2 as [u|e|].
  - destruct H as (f & fb & _ & -> & _). reflexivity.
  - destruct B as [B _]. contradiction.
  - destruct H as [-> _]. reflexivity.
Qed.

(** X6.  Polling is free of side effects away from a segment boundary:
    with an empty output buffer and at most one segment in one of the
    streams (so a flush on one stream alone drops nothing), a [try_pop] that
    answers no leaves the muxer exactly as it was, and it answers no exactly
    when the readiness test of line 195 fails. *)
Theorem X6_idle_poll_changes_nothing (depth : nat) (m : impl) :
  frame_buffer_ m = [] ->
  size (video_streams_ m) <= 1 \/ size (audio_streams_ m) <= 1 ->
  (tick_ready m = false ->
   try_pop (S depth) m = Some (Returned None, m)
   /\ forall k, poll k m = ([], m))
  /\ (forall m', try_pop (S depth) m = Some (Returned None, m') ->
        m' = m /\ tick_ready m = false).
Proof.
  intros Hfb Hs. split.
  - intros Hr. split; [apply try_pop_idle; assumption|].
    apply poll_when_idle; assumption.
  - intros m' H.
    assert (Et : truncate m = m).
    { destruct (truncate_cases m) as [(Hv & Ha & _)|[_ E]]; [lia|exact E]. }
    apply try_pop_cases in H.
    destruct H as [(f & fb & E & _)|[(_ & Hr & _ & ->)|(_ & _ & o2 & m2 & _ & H)]].
    + rewrite Hfb in E. discriminate.
    + rewrite Et in *. auto.
    + destruct o2 as [u|e|].
      * destruct H as (f & fb & _ & E & _). discriminate.
      * destruct H as [E _]. discriminate.
      * destruct H as [E _]. discriminate.
Qed.

Lemma try_pop_buffer (depth : nat) (m m' : impl)
    (o : outcome (option (draw_frame picture))) :
  try_pop depth m = Some (o, m') ->
  (List.length (frame_buffer_ m') <= Nat.max 1 (List.length (frame_buffer_ m)) - 1
   \/ (frame_buffer_ m = [] /\ List.length (frame_buffer_ m') <= 1))%nat.
Proof.
  intros H. apply try_pop_cases in H.
  destruct H as [(f & fb & E & _ & ->)|[(E & _ & _ & ->)|(E & _ & o2 & m2 & Ea & H)]].
  - left. fields. rewrite E. cbn [List.length]. lia.
  - right. split; [exact E|].
    destruct (truncate_effect m) as (_ & -> & _). rewrite E. cbn. lia.
  - right. split; [exact E|].
    pose proof (assemble_buffer (truncate m)) as B. rewrite Ea in B.
    cbn [fst snd] in B.
    destruct (truncate_effect m) as (_ & Ef & _). rewrite Ef, E in B.
    destruct o2 as [u|e|].
    + destruct H as (f & fb & E2 & _ & ->). fields.
      destruct B as [f0 [B|B]]; rewrite B in E2; cbn [app] in E2;
        injection E2 as _ <-; cbn; lia.
    + destruct H as [_ ->]. destruct B as [_ ->]. cbn. lia.
    + destruct H as [_ ->]. rewrite B. cbn. lia.
Qed.

(** X7.  Between calls the output buffer holds at most one frame: every
    call keeps this bound once it holds, and it holds after construction, so
    it holds after any sequence of calls.  (The one frame is the second copy
    of a Duplicate tick.) *)
Theorem X7_output_buffer_holds_at_most_one_frame :
  (forall (m : impl) (c : call AVFrame),
      (List.length (frame_buffer_ m) <= 1)%nat ->
      (List.length (frame_buffer_ (after_call m c)) <= 1)%nat)
  /\ (forall in_fps fd fs (cs : list (call AVFrame)),
        (List.length
           (frame_buffer_ (after_calls (construct in_fps fd fs) cs)) <= 1)%nat).
Proof.
  assert (Hstep : forall (m : impl) (c : call AVFrame),
             (List.length (frame_buffer_ m) <= 1)%nat ->
             (List.length (frame_buffer_ (after_call m c)) <= 1)%nat).
  { intros m c Hm. destruct c as [v|a|]; unfold after_call.
    - rewrite push_video_state.
      destruct (store_video_effect v m) as (_ & _ & _ & ->). exact Hm.
    - rewrite push_audio_state.
      destruct (store_audio_effect a m) as (_ & _ & _ & -> & _). exact Hm.
    - destruct (try_pop 2 m) as [[o m']|] eqn:E; [|exact Hm].
      destruct (try_pop_buffer _ _ _ _ E) as [H|[_ H]]; lia. }
  split; [exact Hstep|].
  intros in_fps fd fs cs.
  apply (after_calls_invariant
           (fun m => (List.length (frame_buffer_ m) <= 1)%nat)); [exact Hstep|].
  cbn. lia.
Qed.

(** A push other than a flush writes at the end of the last segment. *)
Lemma store_video_appends (v : video_arg AVFrame) (m : impl) :
  v <> flush_video ->
  exists e, video_streams_ (store_video v m)
            = on_back (fun x => x ++ e) (video_streams_ m).
Proof.
  intros Hv. destruct v as [| | |frame]; unfold store_video.
  - exists []. symmetry. apply on_back_id.
  - contradiction.
  - fields. eexists. reflexivity.
  - assert (H : exists m1 : impl,
               (if display_mode.eqb (display_mode_ m) display_mode.invalid
                then update_display_mode frame m else m) = m1
               /\ (exists e, video_streams_ m1
                             = on_back (fun x => x ++ e) (video_streams_ m))).
    { destruct (display_mode.eqb (display_mode_ m) display_mode.invalid).
      - destruct (update_display_mode_effect frame m) as (Hu & _).
        exists (update_display_mode frame m). auto.
      - exists m. split; [reflexivity|]. exists []. symmetry. apply on_back_id. }
    destruct H as (m1 & -> & Hu). cbv zeta.
    destruct (filter_poll_all (filter_push (filter_ m1) frame)) as [av_frames f].
    fields. apply grown_more. exact Hu.
Qed.

Lemma store_audio_appends (a : audio_arg) (m : impl) :
  a <> flush_audio ->
  exists e, audio_streams_ (store_audio a m)
            = on_back (fun x => x ++ e) (audio_streams_ m).
Proof.
  intros Ha. destruct a as [| | |a]; unfold store_audio; fields.
  - exists []. symmetry. apply on_back_id.
  - contradiction.
  - eexists. reflexivity.
  - eexists. reflexivity.
Qed.

(** A call that is neither [try_pop] nor a flush of the stream leaves the
    last segment over its bound when it was. *)
Lemma after_call_video_overflow (m : impl) (c : call AVFrame) :
  is_try_pop c = false ->
  is_video_flush c = false ->
  video_streams_ m <> [] ->
  32 < size (back [] (video_streams_ m)) ->
  video_streams_ (after_call m c) <> []
  /\ 32 < size (back [] (video_streams_ (after_call m c))).
Proof.
  intros Hp Hf Hne Hover. destruct c as [v|a|]; [| |discriminate Hp].
  - cbn [after_call]. rewrite push_video_state.
    assert (Hv : v <> flush_video) by (intros ->; discriminate Hf).
    destruct (store_video_appends v m Hv) as [e ->].
    split; [apply on_back_nonempty; exact Hne|].
    rewrite (back_on_back [] _ _ Hne), size_app.
    pose proof (size_nonneg e). lia.
  - cbn [after_call]. rewrite push_audio_state.
    destruct (store_audio_effect a m) as (_ & -> & _). auto.
Qed.

Lemma after_call_audio_overflow (m : impl) (c : call AVFrame) :
  is_try_pop c = false ->
  is_audio_flush c = false ->
  audio_streams_ m <> [] ->
  audio_bound m < size (back [] (audio_streams_ m)) ->
  audio_streams_ (after_call m c) <> []
  /\ audio_bound (after_call m c)
     < size (back [] (audio_streams_ (after_call m c))).
Proof.
  intros Hp Hf Hne Hover. destruct c as [v|a|]; [| |discriminate Hp].
  - cbn [after_call]. rewrite push_video_state.
    destruct (store_video_effect v m) as (_ & Ea & Ec & _).
    unfold audio_bound, cadence_front. rewrite Ea, Ec. auto.
  - cbn [after_call]. rewrite push_audio_state.
    assert (Ha : a <> flush_audio) by (intros ->; discriminate Hf).
    assert (Eb : audio_bound (store_audio a m) = audio_bound m).
    { destruct (store_audio_effect a m) as (_ & _ & Ec & _).
      unfold audio_bound, cadence_front. rewrite Ec. reflexivity. }
    rewrite Eb.
    destruct (store_audio_appends a m Ha) as [e ->].
    split; [apply on_back_nonempty; exact Hne|].
    rewrite (back_on_back [] _ _ Hne), size_app.
    pose proof (size_nonneg e). lia.
Qed.

(** X8.  Overflow lasts as long as the client only pushes.  The throw of a
    push comes after its data has been stored, and a push other than a flush
    only adds to the last segment of its stream.  So from a state whose last
    video segment holds more than 32 frames, after any sequence of calls
    with no [try_pop] and no video flush among them the segment still holds
    more than 32 frames, and the next push of a frame or a filler throws the
    overflow error (and leaves the segment over the bound again).  The same
    holds for audio and the bound computed on line 139, with no [try_pop]
    and no audio flush among the calls.  Nothing is said about a sequence
    with a [try_pop] in it: it takes units from the front segment, which is
    the last one when the stream has a single segment, and can bring it back
    under the bound. *)
Theorem X8_overflow_persists_across_pushes (m : impl)
    (cs : list (call AVFrame)) :
  forallb (fun c => negb (is_try_pop c)) cs = true ->
  (video_streams_ m <> [] ->
   32 < size (back [] (video_streams_ m)) ->
   forallb (fun c => negb (is_video_flush c)) cs = true ->
   32 < size (back [] (video_streams_ (after_calls m cs)))
   /\ forall v : video_arg AVFrame,
        v <> null_video -> v <> flush_video ->
        fst (push_video v (after_calls m cs)) = Thrown video_overflow
        /\ 32 < size (back [] (video_streams_
                                 (snd (push_video v (after_calls m cs))))))
  /\ (audio_streams_ m <> [] ->
      audio_bound m < size (back [] (audio_streams_ m)) ->
      forallb (fun c => negb (is_audio_flush c)) cs = true ->
      audio_bound (after_calls m cs)
      < size (back [] (audio_streams_ (after_calls m cs)))
      /\ forall a : audio_arg,
           a <> null_audio -> a <> flush_audio ->
           fst (push_audio a (after_calls m cs)) = Thrown audio_overflow
           /\ audio_bound (snd (push_audio a (after_calls m cs)))
              < size (back [] (audio_streams_
                                 (snd (push_audio a (after_calls m cs)))))).
Proof.
  revert m. induction cs as [|c cs IH]; intros m Hp.
  - cbn [after_calls fold_left]. split.
    + intros Hne Hover _. split; [exact Hover|]. intros v Hn Hf.
      rewrite (push_video_unfold v m Hn). cbn [fst snd].
      destruct (store_video_appends v m Hf) as [e ->].
      rewrite (back_on_back [] _ _ Hne), size_app.
      pose proof (size_nonneg e) as He.
      assert (E : (32 <? size (back [] (video_streams_ m)) + size e) = true)
        by (apply Z.ltb_lt; lia).
      rewrite E. split; [reflexivity|lia].
    + intros Hne Hover _. split; [exact Hover|]. intros a Hn Hf.
      rewrite (push_audio_unfold a m Hn). cbn [fst snd].
      assert (Eb : audio_bound (store_audio a m) = audio_bound m).
      { destruct (store_audio_effect a m) as (_ & _ & Ec & _).
        unfold audio_bound, cadence_front. rewrite Ec. reflexivity. }
      rewrite Eb.
      destruct (store_audio_appends a m Hf) as [e ->].
      rewrite (back_on_back [] _ _ Hne), size_app.
      pose proof (size_nonneg e) as He.
      assert (E : (audio_bound m <? size (back [] (audio_streams_ m)) + size e)
                  = true)
        by (apply Z.ltb_lt; lia).
      rewrite E. split; [reflexivity|lia].
  - cbn [forallb] in Hp. apply andb_true_iff in Hp. destruct Hp as [Hc Hp].
    apply negb_true_iff in Hc.
    change (after_calls m (c :: cs)) with (after_calls (after_call m c) cs).
    destruct (IH (after_call m c) Hp) as [IHv IHa]. split.
    + intros Hne Hover Hfl. cbn [forallb] in Hfl.
      apply andb_true_iff in Hfl. destruct Hfl as [Hf Hfl].
      apply negb_true_iff in Hf.
      destruct (after_call_video_overflow m c Hc Hf Hne Hover) as [Hne' Hover'].
      exact (IHv Hne' Hover' Hfl).
    + intros Hne Hover Hfl. cbn [forallb] in Hfl.
      apply andb_true_iff in Hfl. destruct Hfl as [Hf Hfl].
      apply negb_true_iff in Hf.
      destruct (after_call_audio_overflow m c Hc Hf Hne Hover) as [Hne' Hover'].
      exact (IHa Hne' Hover' Hfl).
Qed.

Lemma store_decoded_mode (frame : AVFrame) (m : impl) :
  display_mode_ (store_video (decoded_video frame) m) <> display_mode.invalid
  /\ (display_mode_ m <> display_mode.invalid ->
      display_mode_ (store_video (decoded_video frame) m) = display_mode_ m).
Proof.
  unfold store_video.
  assert (H : exists m1 : impl,
             (if display_mode.eqb (display_mode_ m) display_mode.invalid
              then update_display_mode frame m else m) = m1
             /\ display_mode_ m1 <> display_mode.invalid
             /\ (display_mode_ m <> display_mode.invalid ->
                 display_mode_ m1 = display_mode_ m)).
  { destruct (display_mode_ m) eqn:Hd;
      try (exists m; rewrite Hd;
           split; [reflexivity|split; [discriminate|intros _; reflexivity]]).
    destruct (update_display_mode_effect frame m) as (_ & _ & _ & _ & Hu).
    exists (update_display_mode frame m).
    split; [reflexivity|]. split; [exact Hu|]. intros C. contradiction. }
  destruct H as (m1 & -> & H1 & H2). cbv zeta.
  destruct (filter_poll_all (filter_push (filter_ m1) frame)) as [av_frames f].
  fields. auto.
Qed.

(** X9.  The display mode is decided by the first decoded frame and then
    kept: after the push of a decoded frame the mode is never Invalid; when
    a mode is already chosen, the push of a decoded frame does not run the
    selection again, it only sends the frame through the filter and appends
    what the filter yields to the last segment.  A filler frame, however,
    sets the mode to Simple whatever it was. *)
Theorem X9_display_mode_is_decided_once (m : impl) (frame : AVFrame) :
  display_mode_ (snd (push_video (decoded_video frame) m))
  <> display_mode.invalid
  /\ display_mode_ (snd (push_video empty_video m)) = display_mode.simple
  /\ (display_mode_ m <> display_mode.invalid ->
      display_mode_ (snd (push_video (decoded_video frame) m)) = display_mode_ m
      /\ filter_ (snd (push_video (decoded_video frame) m))
         = snd (filter_poll_all (filter_push (filter_ m) frame))
      /\ video_streams_ (snd (push_video (decoded_video frame) m))
         = on_back
             (fun q =>
                q ++ map (fun av => make_frame av (fps (format_desc_ m)))
                         (fst (filter_poll_all (filter_push (filter_ m) frame))))
             (video_streams_ m)).
Proof.
  rewrite !push_video_state.
  destruct (store_decoded_mode frame m) as [H1 H2].
  split; [exact H1|]. split; [reflexivity|].
  intros Hd. split; [exact (H2 Hd)|].
  unfold store_video.
  assert (E : display_mode.eqb (display_mode_ m) display_mode.invalid = false)
    by (destruct (display_mode_ m); try reflexivity; contradiction).
  rewrite E. cbv zeta.
  destruct (filter_poll_all (filter_push (filter_ m) frame)) as [av_frames f].
  fields. split; reflexivity.
Qed.

Lemma try_pop_mode (depth : nat) (m m' : impl)
    (o : outcome (option (draw_frame picture))) :
  try_pop depth m = Some (o, m') -> display_mode_ m' = display_mode_ m.
Proof.
  intros H. apply try_pop_cases in H.
  destruct (truncate_effect m) as (_ & _ & Td & _).
  destruct H as [(f & fb & _ & _ & ->)|[(_ & _ & _ & ->)|(_ & _ & o2 & m2 & Ea & H)]];
    [reflexivity|exact Td|].
  pose proof (assemble_popped (truncate m)) as P. rewrite Ea in P.
  destruct P as (_ & _ & _ & Pd & _). cbn [snd] in Pd.
  destruct o2 as [u|e|].
  - destruct H as (f & fb & _ & _ & ->). fields. congruence.
  - destruct H as [_ ->]. congruence.
  - destruct H as [_ ->]. congruence.
Qed.

Lemma consumed_all_empty {A : Type} (dropped : bool) (old new : list (list A)) :
  consumed dropped old new ->
  Forall (fun segment => segment = []) old ->
  Forall (fun segment => segment = []) new.
Proof.
  unfold consumed. intros (L & T & n & F) H.
  assert (H' : Forall (fun segment : list A => segment = [])
                 (if dropped then tl old else old))
    by (destruct dropped; [destruct old; [constructor|inversion H; assumption]
                          |exact H]).
  destruct (if dropped then tl old else old) as [|x old'];
    destruct new as [|y new']; try discriminate; [constructor|].
  cbn [front hd tl] in *. subst. inversion H'; subst.
  constructor; [apply skipn_nil|assumption].
Qed.

Lemma after_call_mode_chosen (m : impl) (c : call AVFrame) :
  mode_chosen_if_buffered m -> mode_chosen_if_buffered (after_call m c).
Proof.
  unfold mode_chosen_if_buffered. intros Hm.
  destruct c as [v|a|]; unfold after_call.
  - rewrite push_video_state. destruct v as [| | |frame].
    + exact Hm.
    + unfold store_video. fields. intros Hd. apply Forall_app.
      split; [apply Hm, Hd|repeat constructor].
    + unfold store_video. fields. discriminate.
    + intros Hd. destruct (store_decoded_mode frame m) as [H _].
      contradiction.
  - rewrite push_audio_state.
    destruct (store_audio_effect a m) as (_ & -> & _ & _ & ->). exact Hm.
  - destruct (try_pop 2 m) as [[o m']|] eqn:E; [|exact Hm].
    rewrite (try_pop_mode _ _ _ _ E). intros Hd.
    destruct (try_pop_effect _ _ _ _ E) as (_ & dropped & Cv & _).
    exact (consumed_all_empty _ _ _ Cv (Hm Hd)).
Qed.

(** X10.  After any sequence of calls on a new muxer, video units are
    buffered only when a display mode has been chosen: while the mode is
    Invalid every video segment is empty.  So on such a muxer the third
    part of the test of line 195 never decides: the muxer has a tick ready
    exactly when both front segments are ready. *)
Theorem X10_buffered_video_has_a_display_mode
    in_fps fd fs (cs : list (call AVFrame)) :
  mode_chosen_if_buffered (after_calls (construct in_fps fd fs) cs)
  /\ tick_ready (after_calls (construct in_fps fd fs) cs)
     = video_ready2 (after_calls (construct in_fps fd fs) cs)
       && audio_ready2 (after_calls (construct in_fps fd fs) cs).
Proof.
  assert (H : mode_chosen_if_buffered (after_calls (construct in_fps fd fs) cs)).
  { apply (after_calls_invariant mode_chosen_if_buffered).
    - intros m c. apply after_call_mode_chosen.
    - intros _. repeat constructor. }
  split; [exact H|].
  generalize dependent (after_calls (construct in_fps fd fs) cs). intros m H.
  unfold tick_ready.
  destruct (display_mode.eqb (display_mode_ m) display_mode.invalid) eqn:E.
  - assert (Hd : display_mode_ m = display_mode.invalid)
      by (destruct (display_mode_ m); try discriminate E; reflexivity).
    specialize (H Hd).
    assert (Hv : video_ready2 m = false).
    { unfold video_ready2. rewrite Hd.
      destruct (video_streams_ m) as [|x rest]; [reflexivity|].
      inversion H; subst. reflexivity. }
    rewrite Hv. reflexivity.
  - rewrite orb_false_r, negb_orb, !negb_involutive. reflexivity.
Qed.

Lemma andb5_false (a b c d e : bool) :
  a = false \/ c = false \/ d = false \/ e = false ->
  a && b && c && d && e = false.
Proof. destruct a, b, c, d, e; simpl; intuition discriminate. Qed.

Lemma update_display_mode_no_reinterlace (frame : AVFrame) (m : impl) :
  (forall a b c d,
      get_display_mode a b c d <> display_mode.deinterlace_bob_reinterlace) ->
  (frame_height frame = 480 /\ height (format_desc_ m) = 486)
  \/ field_mode_of (format_desc_ m) = field_mode.progressive
  \/ frame_height frame = height (format_desc_ m)
  \/ is_deinterlacing (filter_str_ m) = true ->
  display_mode_ (update_display_mode frame m)
  <> display_mode.deinterlace_bob_reinterlace.
Proof.
  intros Hg Hcase. unfold update_display_mode. cbv zeta.
  match goal with
  | |- context [set_display_mode (if display_mode.eqb ?d _ then _ else _)
                                 (set_display_mode _ m)] =>
      assert (HD : d <> display_mode.deinterlace_bob_reinterlace);
      [|revert HD; generalize d; intros dm0 HD]
  end.
  { fields.
    match goal with
    | |- (if ?c then _ else _) <> _ =>
        assert (Hc : c = false); [|rewrite Hc; apply Hg]
    end.
    apply andb5_false.
    destruct Hcase as [[H1 H2]|[H|[H|H]]].
    - left. rewrite H1, H2. reflexivity.
    - right. right. left. rewrite H. reflexivity.
    - right. right. right. rewrite H, Z.eqb_refl. reflexivity.
    - right. left. rewrite H. reflexivity. }
  set (dm := if display_mode.eqb dm0 display_mode.invalid
             then display_mode.simple else dm0).
  assert (Hdm : dm <> display_mode.deinterlace_bob_reinterlace)
    by (subst dm; destruct dm0; simpl; congruence).
  clearbody dm.
  set (m1 := set_display_mode dm (set_display_mode display_mode.simple m)).
  assert (E5 : display_mode_ m1 = dm) by reflexivity.
  clearbody m1.
  match goal with
  | |- context [if negb ?c then _ else _] => destruct (negb c)
  end.
  - match goal with
    | |- context [set_filter ?f0 _] =>
        destruct (set_filter_fields f0 (drain_filter frame m1))
          as (_ & _ & _ & _ & ->)
    end.
    destruct (drain_filter_effect frame m1) as (_ & _ & _ & _ & ->).
    rewrite E5. exact Hdm.
  - rewrite E5. exact Hdm.
Qed.

(** X11.  The selection upgrades to DeinterlaceBobReinterlace only for
    footage that will be rescaled onto an interlaced format: with a
    [get_display_mode] that does not itself answer
    DeinterlaceBobReinterlace, the first decoded frame never selects that
    mode when it is 480 lines high on a 486-line format (NTSC DV), when the
    format is progressive, when the frame has the height of the format, or
    when the filter of the muxer already deinterlaces. *)
Theorem X11_no_reinterlace_without_rescaling (frame : AVFrame) (m : impl) :
  (forall a b c d,
      get_display_mode a b c d <> display_mode.deinterlace_bob_reinterlace) ->
  display_mode_ m = display_mode.invalid ->
  (frame_height frame = 480 /\ height (format_desc_ m) = 486)
  \/ field_mode_of (format_desc_ m) = field_mode.progressive
  \/ frame_height frame = height (format_desc_ m)
  \/ is_deinterlacing (filter_str_ m) = true ->
  display_mode_ (snd (push_video (decoded_video frame) m))
  <> display_mode.deinterlace_bob_reinterlace.
Proof.
  intros Hg Hd Hcase. rewrite push_video_state. unfold store_video.
  rewrite Hd. cbn [display_mode.eqb].
  pose proof (update_display_mode_no_reinterlace frame m Hg Hcase) as H.
  revert H. generalize (update_display_mode frame m). intros m1 H. cbv zeta.
  destruct (filter_poll_all (filter_push (filter_ m1) frame)) as [av_frames f].
  fields. exact H.
Qed.

(** X12.  [calc_nb_frames] stays within 32 bits, and the 64-bit
    intermediate makes two cases exact on the whole 32-bit range: a
    double-rate filter followed by a halving mode (Interlace,
    DeinterlaceBobReinterlace, Half) gives the input back, and so does a
    single-rate filter with a mode that neither halves nor duplicates. *)
Theorem X12_calc_nb_frames_identity_cases (m : impl) (n : Z) :
  0 <= n < 2 ^ 32 ->
  0 <= calc_nb_frames m n < 2 ^ 32
  /\ (filter_is_double_rate (filter_ m) = true ->
      units_per_tick (display_mode_ m) = 2 ->
      calc_nb_frames m n = n)
  /\ (filter_is_double_rate (filter_ m) = false ->
      units_per_tick (display_mode_ m) = 1 ->
      display_mode_ m <> display_mode.duplicate ->
      calc_nb_frames m n = n).
Proof.
  intros Hn. split; [|split].
  - unfold calc_nb_frames, to_uint32. apply Z.mod_pos_bound. lia.
  - intros Hf Hu. unfold calc_nb_frames, to_uint32, to_uint64. rewrite Hf.
    rewrite (Z.mod_small n (2 ^ 64)) by lia.
    rewrite (Z.mod_small (n * 2) (2 ^ 64)) by lia.
    destruct (display_mode_ m); try discriminate Hu;
      rewrite Z.div_mul by lia; apply Z.mod_small; lia.
  - intros Hf Hu Hd. unfold calc_nb_frames, to_uint32, to_uint64. rewrite Hf.
    rewrite (Z.mod_small n (2 ^ 64)) by lia.
    destruct (display_mode_ m); try discriminate Hu; try contradiction;
      apply Z.mod_small; lia.
Qed.

Lemma repeat_plus {A : Type} (x : A) (a b : nat) :
  repeat x a ++ repeat x b = repeat x (a + b).
Proof. symmetry. apply repeat_app. Qed.

(** X13.  An audio filler is as long as the cadence head at the time of
    the push, and pushes do not move the cadence: n fillers in a row append
    n times the head in zero samples to the last audio segment (whether or
    not some of the pushes throw on overflow), not the n consecutive cadence
    entries that n pops will take. *)
Theorem X13_fillers_repeat_the_cadence_head (n : nat) :
  forall m : impl,
    audio_streams_ m <> [] ->
    0 <= cadence_front m < 2 ^ 31 ->
    audio_streams_ (after_calls m (repeat (call_push_audio empty_audio) n))
    = on_back
        (fun b => b ++ repeat 0 (n * Z.to_nat (cadence_front m)))
        (audio_streams_ m)
    /\ audio_cadence_ (after_calls m (repeat (call_push_audio empty_audio) n))
       = audio_cadence_ m
    /\ video_streams_ (after_calls m (repeat (call_push_audio empty_audio) n))
       = video_streams_ m.
Proof.
  induction n as [|n IH]; intros m Hne Hc.
  - cbn. rewrite on_back_id. auto.
  - cbn [repeat].
    change (after_calls m
              (call_push_audio empty_audio
               :: repeat (call_push_audio empty_audio) n))
      with (after_calls (snd (push_audio empty_audio m))
              (repeat (call_push_audio empty_audio) n)).
    rewrite push_audio_state.
    assert (Ea : audio_streams_ (store_audio empty_audio m)
                 = on_back
                     (fun b => b ++ repeat 0 (Z.to_nat (cadence_front m)))
                     (audio_streams_ m)).
    { unfold store_audio. fields. rewrite to_size_t_small by lia. reflexivity. }
    assert (Ec : audio_cadence_ (store_audio empty_audio m) = audio_cadence_ m)
      by reflexivity.
    assert (Ev : video_streams_ (store_audio empty_audio m) = video_streams_ m)
      by reflexivity.
    assert (Ef : cadence_front (store_audio empty_audio m) = cadence_front m)
      by reflexivity.
    destruct (IH (store_audio empty_audio m)) as (I1 & I2 & I3).
    + rewrite Ea. apply on_back_nonempty. exact Hne.
    + rewrite Ef. exact Hc.
    + rewrite I1, I2, I3, Ea, Ef, Ec, Ev. repeat split.
      rewrite on_back_compose. apply on_back_ext. intros x.
      rewrite <- app_assoc, repeat_plus. reflexivity.
Qed.

(** X14.  A filler tick goes through: on a muxer with an empty output
    buffer and one empty segment per stream, a video filler followed by an
    audio filler are both accepted, and the next [try_pop] returns one blank
    frame carrying the cadence head in zero samples; both segments are
    empty again, the cadence has moved one step and the mode is Simple. *)
Theorem X14_filler_tick_round_trip (m : impl) (c0 : Z) (cs : list Z) :
  frame_buffer_ m = [] ->
  video_streams_ m = [[]] ->
  audio_streams_ m = [[]] ->
  audio_cadence_ m = c0 :: cs ->
  0 <= c0 < 2 ^ 26 ->
  fst (push_video empty_video m) = Returned tt
  /\ fst (push_audio empty_audio (snd (push_video empty_video m))) = Returned tt
  /\ exists m',
       try_pop 2 (snd (push_audio empty_audio (snd (push_video empty_video m))))
       = Some (Returned
                 (Some (draw_frame_of
                          {| image_data := blank_picture;
                             audio_data := repeat 0 (Z.to_nat c0) |})), m')
       /\ video_streams_ m' = [[]]
       /\ audio_streams_ m' = [[]]
       /\ audio_cadence_ m' = cs ++ [c0]
       /\ display_mode_ m' = display_mode.simple
       /\ frame_buffer_ m' = [].
Proof.
  intros Hfb Hv Ha Hc R0.
  assert (Hn : @empty_video AVFrame <> null_video) by discriminate.
  assert (Hna : empty_audio <> null_audio) by discriminate.
  rewrite (push_video_unfold empty_video m Hn). cbn [fst snd].
  set (m1 := store_video empty_video m).
  rewrite (push_audio_unfold empty_audio m1 Hna). cbn [fst snd].
  set (m2 := store_audio empty_audio m1).
  assert (V2 : video_streams_ m2 = [[create_frame]])
    by (subst m2 m1; unfold store_audio, store_video; fields;
        rewrite Hv; reflexivity).
  assert (A2 : audio_streams_ m2 = [repeat 0 (Z.to_nat c0)]).
  { subst m2 m1. unfold store_audio, store_video, cadence_front. fields.
    rewrite Ha, Hc. cbn [front hd on_back app].
    rewrite to_size_t_small by lia. reflexivity. }
  assert (C2 : audio_cadence_ m2 = c0 :: cs) by exact Hc.
  assert (D2 : display_mode_ m2 = display_mode.simple) by reflexivity.
  assert (F2 : frame_buffer_ m2 = []) by exact Hfb.
  assert (V1 : video_streams_ m1 = [[create_frame]])
    by (subst m1; unfold store_video; fields; rewrite Hv; reflexivity).
  assert (B2 : audio_bound m2 = 32 * c0).
  { rewrite audio_bound_small; unfold cadence_front; rewrite C2;
      cbn [front hd]; lia. }
  assert (S2 : size (repeat 0 (Z.to_nat c0)) = c0)
    by (unfold size; rewrite repeat_length; lia).
  assert (E1 : (32 <? size (back [] (video_streams_ m1))) = false)
    by (rewrite V1; reflexivity).
  assert (E2 : (audio_bound m2 <? size (back [] (audio_streams_ m2))) = false)
    by (rewrite B2, A2; cbn [back last]; rewrite S2; apply Z.ltb_ge; lia).
  rewrite E1, E2. split; [reflexivity|]. split; [reflexivity|].
  assert (R : 0 <= c0 < 2 ^ 31) by lia.
  assert (L : c0 <= size (repeat 0 (Z.to_nat c0))) by lia.
  assert (Hs : emits_single (display_mode_ m2) = true)
    by (rewrite D2; reflexivity).
  destruct (single_tick m2 create_frame [] [] (repeat 0 (Z.to_nat c0)) [] c0 cs
              Hs F2 V2 A2 C2 R L)
    as (m' & Hpoll & Hd' & Hfb' & Hv' & Ha' & Hc').
  specialize (Hpoll 0%nat). cbn [poll fst snd] in Hpoll.
  destruct (try_pop 2 m2) as [[[[f|]|e|] m3]|] eqn:Et;
    cbn [poll] in Hpoll; try discriminate Hpoll.
  injection Hpoll as -> ->.
  exists m'. split.
  - f_equal. f_equal. f_equal. f_equal. unfold create_frame.
    cbn [image_data]. rewrite firstn_all2 by (rewrite repeat_length; lia).
    reflexivity.
  - rewrite Hv', Ha', Hc', Hd', D2, Hfb'.
    rewrite skipn_all2 by (rewrite repeat_length; lia). auto 10.
Qed.

End MuxerFacts.

(** ** The claims on concrete muxers *)

Import Fixture.

(** C1 as the spec words it, with the front segment: after a flush the
    33rd blank frame of the new segment is refused although the front
    segment is empty. *)
Lemma C1_front_segment_counterexample :
  ~ (fst (push_video empty_video ntsc_flushed_32_blanks) = Thrown video_overflow
     <-> 32 < size (front [] (video_streams_
                                (snd (push_video empty_video
                                        ntsc_flushed_32_blanks)))))
  /\ ~ (fst (push_video empty_video ntsc_flushed_32_blanks)
        = Thrown video_overflow
        <-> 32 < size (front [] (video_streams_ ntsc_flushed_32_blanks))).
Proof.
  assert (E : fst (push_video empty_video ntsc_flushed_32_blanks)
              = Thrown video_overflow) by (vm_compute; reflexivity).
  assert (F1 : size (front [] (video_streams_
                                 (snd (push_video empty_video
                                         ntsc_flushed_32_blanks)))) = 0)
    by (vm_compute; reflexivity).
  assert (F0 : size (front [] (video_streams_ ntsc_flushed_32_blanks)) = 0)
    by (vm_compute; reflexivity).
  split; intros [H _]; apply H in E; [rewrite F1 in E|rewrite F0 in E]; lia.
Qed.

Lemma C1_witness :
  fst (push_video empty_video ntsc_31_blanks) = Returned tt
  /\ fst (push_video empty_video
            (snd (push_video empty_video ntsc_31_blanks)))
     = Thrown video_overflow.
Proof.
  assert (Hc : forall m : muxer,
             cadence_front m = 1602 -> 0 <= cadence_front m < 2 ^ 26)
    by (intros m ->; lia).
  assert (E1 : cadence_front ntsc_31_blanks = 1602)
    by (vm_compute; reflexivity).
  assert (E2 : cadence_front (snd (push_video empty_video ntsc_31_blanks))
               = 1602)
    by (vm_compute; reflexivity).
  assert (Hv : @empty_video av_frame <> null_video) by discriminate.
  assert (Ha : empty_audio <> null_audio) by discriminate.
  pose proof (C1_overflow_iff_back_segment_exceeds
                ntsc_31_blanks empty_video empty_audio Hv Ha (Hc _ E1))
    as (_ & [_ H32] & _).
  pose proof (C1_overflow_iff_back_segment_exceeds
                (snd (push_video empty_video ntsc_31_blanks))
                empty_video empty_audio Hv Ha (Hc _ E2))
    as ([_ H33] & _).
  split.
  - apply H32. vm_compute. discriminate.
  - apply H33. vm_compute. reflexivity.
Defined.

(** C2 as the spec words it, without the comparison of the segment
    counts: one frame is buffered and ready, but the audio stream is one
    flush ahead, and [video_ready] answers no. *)
Lemma C2_segment_count_counterexample :
  ~ (video_ready ntsc_audio_flushed = true
     <-> 1 < size (video_streams_ ntsc_audio_flushed)
         \/ units_per_tick (display_mode_ ntsc_audio_flushed)
            <= size (front [] (video_streams_ ntsc_audio_flushed))).
Proof.
  intros [_ H].
  assert (F : video_ready ntsc_audio_flushed = false)
    by (vm_compute; reflexivity).
  assert (E : video_ready ntsc_audio_flushed = true).
  { apply H. right. vm_compute. discriminate. }
  rewrite F in E. discriminate.
Qed.

Lemma C2_witness :
  audio_ready ntsc_audio_flushed = true
  /\ ~ (size (audio_streams_ ntsc_audio_flushed)
        <= size (video_streams_ ntsc_audio_flushed)).
Proof.
  assert (Hc : 0 <= cadence_front ntsc_audio_flushed < 2 ^ 31).
  { assert (E : cadence_front ntsc_audio_flushed = 1602)
      by (vm_compute; reflexivity).
    rewrite E. lia. }
  pose proof (C2_ready_iff ntsc_audio_flushed Hc) as (_ & [_ H]).
  split.
  - apply H. left. vm_compute. reflexivity.
  - vm_compute. intros L. apply L. reflexivity.
Defined.

Lemma C3_witness :
  exists chunks m',
    pop_audio_times (List.length (audio_cadence ntsc)) ntsc_one_cycle
    = (Returned chunks, m')
    /\ size (List.concat chunks) = sum (audio_cadence ntsc)
    /\ audio_cadence_ m' = audio_cadence_ ntsc_one_cycle.
Proof.
  assert (Hbase : Forall (fun c => 0 < c < 2 ^ 31) (audio_cadence ntsc))
    by (repeat constructor; lia).
  assert (Hrot : is_rotation (audio_cadence_ ntsc_one_cycle) (audio_cadence ntsc)).
  { exists [1602; 1601; 1602; 1601], [1602].
    split; vm_compute; reflexivity. }
  assert (Hsum : sum (audio_cadence ntsc)
                 <= size (front [] (audio_streams_ ntsc_one_cycle)))
    by (vm_compute; discriminate).
  pose proof (C3_pop_audio_cycle (audio_cadence ntsc) ntsc_one_cycle Hbase Hrot)
    as (_ & Hk & Hex).
  destruct (Hex Hsum) as (chunks & m' & E).
  destruct (Hk chunks m' E) as (_ & Hs & _ & _ & Hc).
  exists chunks, m'. split; [exact E|]. split; [exact Hs|exact Hc].
Defined.

(** C4 over the full 32-bit range: in Duplicate mode 2^31 - 1 frames
    project to 2^32 - 2, and 2^31 frames project to 0. *)
Lemma C4_full_range_counterexample :
  ~ (forall a b, 0 <= a <= b /\ b < 2 ^ 32 ->
       calc_nb_frames dup_two_ticks a <= calc_nb_frames dup_two_ticks b).
Proof.
  intros H.
  assert (R : 0 <= 2147483647 <= 2147483648 /\ 2147483648 < 2 ^ 32) by lia.
  specialize (H 2147483647 2147483648 R).
  assert (F1 : calc_nb_frames dup_two_ticks 2147483647 = 4294967294)
    by (vm_compute; reflexivity).
  assert (F2 : calc_nb_frames dup_two_ticks 2147483648 = 0)
    by (vm_compute; reflexivity).
  rewrite F1, F2 in H. lia.
Qed.

Lemma C4_witness : calc_nb_frames dup_two_ticks 100 = 200.
Proof.
  assert (R : 0 <= 100 < 2 ^ 32) by lia.
  pose proof (C4_calc_nb_frames_projection dup_two_ticks 100 R) as (_ & H & _).
  assert (P : projected (filter_is_double_rate (filter_ dup_two_ticks))
                (display_mode_ dup_two_ticks) 100 < 2 ^ 32)
    by (vm_compute; reflexivity).
  destruct (H P) as [E _]. rewrite E. vm_compute. reflexivity.
Defined.

Lemma C5_witness :
  fst (poll 4 dup_marked)
  = [draw_frame_of {| image_data := 1;
                      audio_data := chunk 1 801 ++ chunk 2 801 |};
     draw_frame_of {| image_data := 1;
                      audio_data := chunk 1 801 ++ chunk 2 801 |};
     draw_frame_of {| image_data := 2;
                      audio_data := chunk 3 800 ++ chunk 4 801 |};
     draw_frame_of {| image_data := 2;
                      audio_data := chunk 3 800 ++ chunk 4 801 |}]
  /\ video_streams_ (snd (poll 4 dup_marked)) = [[]]
  /\ List.length (fst (poll 9 dup_marked)) = 4%nat.
Proof.
  set (video := [numbered 1; numbered 2]).
  set (audio := chunk 1 801 ++ chunk 2 801 ++ chunk 3 800 ++ chunk 4 801
                ++ chunk 5 1).
  assert (Hd : display_mode_ dup_marked = display_mode.duplicate)
    by (vm_compute; reflexivity).
  assert (Hfb : frame_buffer_ dup_marked = []) by (vm_compute; reflexivity).
  assert (Hv : video_streams_ dup_marked = video :: [])
    by (vm_compute; reflexivity).
  assert (Ha : audio_streams_ dup_marked = audio :: [])
    by (vm_compute; reflexivity).
  assert (Ec : audio_cadence_ dup_marked = [801; 801; 800; 801; 801])
    by (vm_compute; reflexivity).
  assert (Hne : audio_cadence_ dup_marked <> [])
    by (rewrite Ec; discriminate).
  assert (Hall : Forall (fun c => 0 <= c <= 801) (audio_cadence_ dup_marked))
    by (rewrite Ec; repeat constructor; lia).
  assert (Hb : 801 < 2 ^ 31) by lia.
  assert (Hs : 2 * size video * 801 <= size audio)
    by (vm_compute; discriminate).
  pose proof (C5_duplicate_emits_every_tick_twice dup_marked Hd) as [_ H].
  destruct (H video [] audio [] 801 Hfb Hv Ha Hne Hall Hb Hs)
    as (E & _ & V & _ & L).
  split; [|split].
  - etransitivity; [exact E|]. rewrite Ec. vm_compute. reflexivity.
  - exact V.
  - exact (L eq_refl 5%nat).
Defined.

Lemma C6_witness :
  try_pop 1 ntsc_cut_short = Some (Returned None, truncate ntsc_cut_short)
  /\ truncate ntsc_cut_short
     = set_audio_streams (tl (audio_streams_ ntsc_cut_short))
         (set_video_streams (tl (video_streams_ ntsc_cut_short)) ntsc_cut_short).
Proof.
  assert (Hfb : frame_buffer_ ntsc_cut_short = []) by (vm_compute; reflexivity).
  assert (Hv : 1 < size (video_streams_ ntsc_cut_short))
    by (vm_compute; reflexivity).
  assert (Ha : 1 < size (audio_streams_ ntsc_cut_short))
    by (vm_compute; reflexivity).
  assert (Hr : video_ready2 ntsc_cut_short = false
               \/ audio_ready2 ntsc_cut_short = false)
    by (right; vm_compute; reflexivity).
  pose proof (C6_truncation_drops_front_segments 0 ntsc_cut_short Hv Ha Hr)
    as (_ & H & _).
  destruct (H Hfb) as (Et & Hn & _).
  split; [|exact Et].
  apply Hn. vm_compute. reflexivity.
Defined.

Lemma C8_witness :
  streams_nonempty
    (after_calls fresh_ntsc
       [call_push_video flush_video; call_push_audio flush_audio;
        call_try_pop; call_try_pop; call_try_pop]).
Proof.
  assert (H0 : streams_nonempty fresh_ntsc) by (split; discriminate).
  pose proof (C8_streams_keep_a_segment fresh_ntsc H0) as (_ & _ & _ & _ & H).
  apply H.
Defined.


Lemma C10_witness : exists r, try_pop 2 dup_two_ticks = Some r.
Proof.
  pose proof (C10_try_pop_depth_two dup_two_ticks) as (H & _). exact H.
Defined.

(** ** The further properties on concrete muxers *)

Lemma X1_witness :
  fst (poll 3 ntsc_three_marked)
  = [draw_frame_of {| image_data := 1; audio_data := chunk 1 1602 |};
     draw_frame_of {| image_data := 2; audio_data := chunk 2 1602 |};
     draw_frame_of {| image_data := 3; audio_data := chunk 3 1601 |}]
  /\ video_streams_ (snd (poll 3 ntsc_three_marked)) = [[]]
  /\ poll 8 ntsc_three_marked = poll 3 ntsc_three_marked.
Proof.
  set (video := [numbered 1; numbered 2; numbered 3]).
  set (audio := chunk 1 1602 ++ chunk 2 1602 ++ chunk 3 1601 ++ chunk 4 1).
  assert (Hs : emits_single (display_mode_ ntsc_three_marked) = true)
    by (vm_compute; reflexivity).
  assert (Hfb : frame_buffer_ ntsc_three_marked = [])
    by (vm_compute; reflexivity).
  assert (Hv : video_streams_ ntsc_three_marked = video :: [])
    by (vm_compute; reflexivity).
  assert (Ha : audio_streams_ ntsc_three_marked = audio :: [])
    by (vm_compute; reflexivity).
  assert (Ec : audio_cadence_ ntsc_three_marked
               = [1602; 1602; 1601; 1602; 1601])
    by (vm_compute; reflexivity).
  assert (Hne : audio_cadence_ ntsc_three_marked <> [])
    by (rewrite Ec; discriminate).
  assert (Hall : Forall (fun c => 0 <= c <= 1602)
                   (audio_cadence_ ntsc_three_marked))
    by (rewrite Ec; repeat constructor; lia).
  assert (Hb : 1602 < 2 ^ 31) by lia.
  assert (Hz : size video * 1602 <= size audio)
    by (vm_compute; discriminate).
  destruct (X1_single_modes_one_frame_per_unit ntsc_three_marked
              video [] audio [] 1602 Hs Hfb Hv Ha Hne Hall Hb Hz)
    as (E & _ & V & _ & L).
  split; [|split].
  - etransitivity; [exact E|]. rewrite Ec. vm_compute. reflexivity.
  - exact V.
  - exact (L eq_refl 5%nat).
Defined.

Lemma X2_witness :
  fst (poll 2 interlace_four_frames)
  = [draw_frame_interlace
       (draw_frame_of {| image_data := 1; audio_data := chunk 1 1602 |})
       (draw_frame_of {| image_data := 2; audio_data := [] |})
       field_mode.lower;
     draw_frame_interlace
       (draw_frame_of {| image_data := 3; audio_data := chunk 2 1602 |})
       (draw_frame_of {| image_data := 4; audio_data := [] |})
       field_mode.lower]
  /\ video_streams_ (snd (poll 2 interlace_four_frames)) = [[]]
  /\ poll 7 interlace_four_frames = poll 2 interlace_four_frames.
Proof.
  set (audio := chunk 1 1602 ++ chunk 2 1602).
  assert (Ed : display_mode_ interlace_four_frames = display_mode.interlace)
    by (vm_compute; reflexivity).
  assert (Ef : field_mode_of (format_desc_ interlace_four_frames)
               = field_mode.lower)
    by (vm_compute; reflexivity).
  assert (Hs : units_per_tick (display_mode_ interlace_four_frames) = 2)
    by (rewrite Ed; reflexivity).
  assert (Hfb : frame_buffer_ interlace_four_frames = [])
    by (vm_compute; reflexivity).
  assert (Hv : video_streams_ interlace_four_frames
               = (unpair four_in_pairs ++ []) :: [])
    by (vm_compute; reflexivity).
  assert (Hl : (List.length (@nil (mutable_frame Z)) <= 1)%nat)
    by (simpl; lia).
  assert (Ha : audio_streams_ interlace_four_frames = audio :: [])
    by (vm_compute; reflexivity).
  assert (Ec : audio_cadence_ interlace_four_frames
               = [1602; 1602; 1601; 1602; 1601])
    by (vm_compute; reflexivity).
  assert (Hne : audio_cadence_ interlace_four_frames <> [])
    by (rewrite Ec; discriminate).
  assert (Hall : Forall (fun c => 0 <= c <= 1602)
                   (audio_cadence_ interlace_four_frames))
    by (rewrite Ec; repeat constructor; lia).
  assert (Hb : 1602 < 2 ^ 31) by lia.
  assert (Hz : size four_in_pairs * 1602 <= size audio)
    by (vm_compute; discriminate).
  destruct (X2_paired_modes_one_frame_per_two_units interlace_four_frames
              four_in_pairs [] [] audio [] 1602
              Hs Hfb Hv Hl Ha Hne Hall Hb Hz)
    as (E & _ & V & _ & L).
  split; [|split].
  - etransitivity; [exact E|]. rewrite Ec, Ed, Ef. vm_compute. reflexivity.
  - exact V.
  - exact (L eq_refl 5%nat).
Defined.

Lemma X3_witness :
  exists f m', try_pop 2 ntsc_one_blank_tick = Some (Returned (Some f), m').
Proof.
  assert (Hfb : frame_buffer_ ntsc_one_blank_tick = [])
    by (vm_compute; reflexivity).
  assert (Ha : audio_streams_ ntsc_one_blank_tick <> [])
    by (vm_compute; discriminate).
  assert (Hne : audio_cadence_ ntsc_one_blank_tick <> [])
    by (vm_compute; discriminate).
  assert (Hall : Forall (fun c => 0 <= c < 2 ^ 31)
                   (audio_cadence_ ntsc_one_blank_tick)).
  { assert (E : audio_cadence_ ntsc_one_blank_tick
                = [1602; 1602; 1601; 1602; 1601])
      by (vm_compute; reflexivity).
    rewrite E. repeat constructor; lia. }
  assert (Hr : tick_ready ntsc_one_blank_tick = true)
    by (vm_compute; reflexivity).
  assert (D : display_mode_ ntsc_one_blank_tick = display_mode.simple)
    by (vm_compute; reflexivity).
  assert (Hdup : display_mode_ ntsc_one_blank_tick = display_mode.duplicate ->
                 front 0 (rotate 1 (audio_cadence_ ntsc_one_blank_tick))
                 <= cadence_front ntsc_one_blank_tick)
    by (intros H; rewrite D in H; discriminate H).
  destruct (X3_ready_tick_is_handed_out ntsc_one_blank_tick
              Hfb Ha Hne Hall Hr Hdup) as (f & m' & E & _).
  exists f, m'. exact E.
Defined.

Lemma X4_witness :
  tick_ready dup_one_sample_short = true
  /\ exists m', try_pop 2 dup_one_sample_short = Some (Undefined, m').
Proof.
  assert (Hd : display_mode_ dup_one_sample_short = display_mode.duplicate)
    by (vm_compute; reflexivity).
  assert (Hfb : frame_buffer_ dup_one_sample_short = [])
    by (vm_compute; reflexivity).
  assert (Hv : video_streams_ dup_one_sample_short = (numbered 2 :: []) :: [])
    by (vm_compute; reflexivity).
  assert (Ha : audio_streams_ dup_one_sample_short
               = repeat 0 (Z.to_nat 1600) :: [])
    by (vm_compute; reflexivity).
  assert (Hc : audio_cadence_ dup_one_sample_short
               = 800 :: [801; 801; 801; 801])
    by (vm_compute; reflexivity).
  assert (Hc1 : [801; 801; 801; 801] ++ [800] = 801 :: [801; 801; 801; 800])
    by reflexivity.
  assert (R0 : 0 <= 800 < 2 ^ 31) by lia.
  assert (R1 : 0 <= 801 < 2 ^ 31) by lia.
  assert (H2 : 2 * 800 <= size (repeat 0 (Z.to_nat 1600)))
    by (vm_compute; discriminate).
  assert (Hlt : size (repeat 0 (Z.to_nat 1600)) < 800 + 801)
    by (vm_compute; reflexivity).
  destruct (X4_duplicate_second_chunk_is_not_checked 1 dup_one_sample_short
              _ _ _ _ _ _ _ _ _ Hd Hfb Hv Ha Hc Hc1 R0 R1 H2 Hlt) as [Hr E].
  split; [exact Hr|]. eexists. exact E.
Defined.

Lemma X5_witness :
  exists o m',
    try_pop 2 dup_one_sample_short = Some (o, m') /\ is_thrown o = false.
Proof.
  destruct (try_pop 2 dup_one_sample_short) as [[o m']|] eqn:E.
  - exists o, m'. split; [reflexivity|].
    exact (X5_try_pop_never_throws 2 dup_one_sample_short m' o E).
  - exfalso. destruct (try_pop_two 0 dup_one_sample_short) as [_ H].
    exact (H E).
Defined.

Lemma X6_witness : try_pop 1 fresh_ntsc = Some (Returned None, fresh_ntsc).
Proof.
  assert (Hfb : frame_buffer_ fresh_ntsc = []) by reflexivity.
  assert (Hs : size (video_streams_ fresh_ntsc) <= 1
               \/ size (audio_streams_ fresh_ntsc) <= 1)
    by (left; vm_compute; discriminate).
  assert (Hr : tick_ready fresh_ntsc = false) by (vm_compute; reflexivity).
  destruct (X6_idle_poll_changes_nothing 0 fresh_ntsc Hfb Hs) as [H _].
  destruct (H Hr) as [E _]. exact E.
Defined.

Lemma X7_witness :
  (List.length
     (frame_buffer_
        (after_calls (construct 25000%Z p50 "")
           [call_push_video (decoded_video (hd_frame 1%Z)); silence 1920%Z;
            call_try_pop])) <= 1)%nat.
Proof.
  destruct (@X7_output_buffer_holds_at_most_one_frame
              av_frame pass_filter Z Z collab) as [_ H].
  apply H.
Defined.

Lemma X8_witness :
  fst (push_video empty_video
         (after_calls ntsc_overflowed
            [call_push_video empty_video; silence 1602;
             call_push_video (decoded_video (hd_frame 1))]))
  = Thrown video_overflow
  /\ fst (push_audio empty_audio
            (after_calls ntsc_audio_overflowed
               [silence 1; call_push_video empty_video;
                call_push_audio empty_audio]))
     = Thrown audio_overflow.
Proof.
  assert (Hne : video_streams_ ntsc_overflowed <> [])
    by (vm_compute; discriminate).
  assert (Ho : 32 < size (back [] (video_streams_ ntsc_overflowed)))
    by (vm_compute; reflexivity).
  assert (Hn : @empty_video av_frame <> null_video) by discriminate.
  assert (Hf : @empty_video av_frame <> flush_video) by discriminate.
  assert (Ane : audio_streams_ ntsc_audio_overflowed <> []).
  { assert (L : List.length (audio_streams_ ntsc_audio_overflowed) = 1%nat)
      by (vm_compute; reflexivity).
    intros E. rewrite E in L. discriminate L. }
  assert (Ao : audio_bound ntsc_audio_overflowed
               < size (back [] (audio_streams_ ntsc_audio_overflowed)))
    by (vm_compute; reflexivity).
  assert (An : empty_audio <> null_audio) by discriminate.
  assert (Af : empty_audio <> flush_audio) by discriminate.
  split.
  - pose proof (X8_overflow_persists_across_pushes ntsc_overflowed
                  [call_push_video empty_video; silence 1602;
                   call_push_video (decoded_video (hd_frame 1))] eq_refl)
      as [H _].
    destruct (H Hne Ho eq_refl) as [_ G].
    destruct (G empty_video Hn Hf) as [E _]. exact E.
  - pose proof (X8_overflow_persists_across_pushes ntsc_audio_overflowed
                  [silence 1; call_push_video empty_video;
                   call_push_audio empty_audio] eq_refl)
      as [_ H].
    destruct (H Ane Ao eq_refl) as [_ G].
    destruct (G empty_audio An Af) as [E _]. exact E.
Defined.

(** A [try_pop] among the calls can end an overflow.  With 33 blank frames
    in the only video segment a filler push throws; after two ticks of
    audio and two calls of [try_pop], 31 frames are left in the segment and
    the same push returns. *)
Lemma try_pop_can_end_overflow :
  fst (push_video empty_video ntsc_33_blanks) = Thrown video_overflow
  /\ size (back [] (video_streams_
                      (after_calls ntsc_33_blanks
                         [silence 3204; call_try_pop; call_try_pop]))) = 31
  /\ fst (push_video empty_video
            (after_calls ntsc_33_blanks
               [silence 3204; call_try_pop; call_try_pop]))
     = Returned tt.
Proof. repeat split; vm_compute; reflexivity. Qed.

Lemma X9_witness :
  display_mode_ (snd (push_video (decoded_video (hd_frame 3)) dup_two_ticks))
  = display_mode_ dup_two_ticks.
Proof.
  assert (Hd : display_mode_ dup_two_ticks <> display_mode.invalid)
    by (vm_compute; discriminate).
  destruct (X9_display_mode_is_decided_once dup_two_ticks (hd_frame 3))
    as (_ & _ & H).
  destruct (H Hd) as [E _]. exact E.
Defined.

Lemma choose_mode_never_reinterlaces a b c d :
  choose_mode a b c d <> display_mode.deinterlace_bob_reinterlace.
Proof.
  unfold choose_mode.
  repeat match goal with
         | |- context [if ?x then _ else _] => destruct x
         end; discriminate.
Qed.

Lemma X11_witness :
  display_mode_ (snd (push_video (decoded_video dv_frame) fresh_ntsc))
  <> display_mode.deinterlace_bob_reinterlace.
Proof.
  assert (Hd : display_mode_ fresh_ntsc = display_mode.invalid) by reflexivity.
  assert (Hc : (frame_height dv_frame = 480
                /\ height (format_desc_ fresh_ntsc) = 486)
               \/ field_mode_of (format_desc_ fresh_ntsc)
                  = field_mode.progressive
               \/ frame_height dv_frame = height (format_desc_ fresh_ntsc)
               \/ is_deinterlacing (filter_str_ fresh_ntsc) = true)
    by (left; split; reflexivity).
  exact (X11_no_reinterlace_without_rescaling dv_frame fresh_ntsc
           choose_mode_never_reinterlaces Hd Hc).
Defined.

Lemma X12_witness : calc_nb_frames ntsc_31_blanks 4294967295 = 4294967295.
Proof.
  assert (R : 0 <= 4294967295 < 2 ^ 32) by lia.
  assert (Hf : filter_is_double_rate (filter_ ntsc_31_blanks) = false)
    by (vm_compute; reflexivity).
  assert (Hu : units_per_tick (display_mode_ ntsc_31_blanks) = 1)
    by (vm_compute; reflexivity).
  assert (Hd : display_mode_ ntsc_31_blanks <> display_mode.duplicate)
    by (vm_compute; discriminate).
  destruct (X12_calc_nb_frames_identity_cases ntsc_31_blanks 4294967295 R)
    as (_ & _ & H).
  exact (H Hf Hu Hd).
Defined.

Lemma X13_witness :
  audio_streams_
    (after_calls fresh_ntsc (repeat (call_push_audio empty_audio) 5))
  = on_back (fun b => b ++ repeat 0 (5 * Z.to_nat (cadence_front fresh_ntsc)))
      (audio_streams_ fresh_ntsc).
Proof.
  assert (Hne : audio_streams_ fresh_ntsc <> []) by discriminate.
  assert (Hc : 0 <= cadence_front fresh_ntsc < 2 ^ 31).
  { assert (E : cadence_front fresh_ntsc = 1602) by (vm_compute; reflexivity).
    rewrite E. lia. }
  destruct (X13_fillers_repeat_the_cadence_head 5 fresh_ntsc Hne Hc)
    as [E _].
  exact E.
Defined.

Lemma X14_witness :
  fst (push_audio empty_audio (snd (push_video empty_video fresh_ntsc)))
  = Returned tt.
Proof.
  assert (Hfb : frame_buffer_ fresh_ntsc = []) by reflexivity.
  assert (Hv : video_streams_ fresh_ntsc = [[]]) by reflexivity.
  assert (Ha : audio_streams_ fresh_ntsc = [[]]) by reflexivity.
  assert (Hc : audio_cadence_ fresh_ntsc = 1602 :: [1602; 1601; 1602; 1601])
    by (vm_compute; reflexivity).
  assert (R : 0 <= 1602 < 2 ^ 26) by lia.
  destruct (X14_filler_tick_round_trip fresh_ntsc 1602 _ Hfb Hv Ha Hc R)
    as (_ & E & _).
  exact E.
Defined.
